(** * The secret store of [src/endpoints/secrets.js]

    A shallow embedding of the server side of the secret store: the
    whole-document load and save on [secrets.json], the legacy flat
    operations ([writeSecret], [deleteSecret], [readSecret]), the managed
    rotation operations ([rotateManagedSecret], [appendManagedKey],
    [spliceManagedKey], [probeManagedKey], [readManagedSecretsState]) and the
    route handlers that combine them ([/read], [/view], [/find],
    [/manager/migrate]).

    Modelling conventions.
    - A JavaScript object used as a dictionary is a [gmap string _] of its own
      properties. Such an object inherits the members of [Object.prototype]:
      reading a name it does not own gives the inherited member ([Js.get]),
      and assigning to ["__proto__"] runs the setter of [Object.prototype]
      and makes no property ([assign]).
    - The file is identified with the document it parses to: [Json d] stands
      for every text that [JSON.parse] turns into [d], whatever its white
      space and the order of its properties. Equality of two files in this
      development is equality of their documents, not of their bytes.
    - A JavaScript string is a [string] whose characters are the code units
      below 256, read as code points U+0000..U+00FF.
    - [undefined] is [None]; [JSON.stringify] drops a property whose value is
      [undefined], so a property assigned [undefined] is absent from the
      document that reaches the file.
    - A document is an object whose properties, under any names, hold
      strings or records of lists of managed keys: what the operations build
      from the empty store when keys, comments and values are strings or
      missing, and what a file of that shape parses to, a property named
      ["__proto__"] included. A file with well-formed JSON of another shape
      is not represented. Numbers given as index or search are integers, or
      fall under [SOther].
    - Every function of the source is synchronous and works on the file of
      one user directory; that file is the state threaded through the monad
      [M] below. *)

From Stdlib Require Import ZArith Ascii String.
From stdpp Require Import gmap strings list fin_maps pretty.

Set Warnings "-register-all".

Open Scope string_scope.
Open Scope Z_scope.

(** ** JavaScript values held in the document *)

(** An element of a managed list: [{ comment, value }], either property
    possibly missing. The type of values is a parameter so that the record
    can occur inside the values themselves. *)
Record ManagedKeyOf (V : Type) : Type := mkManagedKey {
  comment : option string;
  value : option V;
}.
Arguments mkManagedKey {V} _ _.
Arguments comment {V} _.
Arguments value {V} _.

(** The values found under the top-level properties of the document: a
    string (a legacy secret) or a record of arrays of managed keys (the
    [managed] property, or a copy of it that [/manager/migrate] stored as the
    value of a managed key). *)
Inductive jsval : Type :=
| VStr (s : string)
| VRec (m : gmap string (list (ManagedKeyOf jsval))).

Abbreviation ManagedKey := (ManagedKeyOf jsval).

(** [SecretState]: legacy keys and the [managed] property in one object. *)
Abbreviation SecretState := (gmap string jsval).

(** [Object.freeze({ managed: {} })], cloned on every use. *)
Definition INITIAL_STATE : SecretState := {[ "managed" := VRec ∅ ]}.

(** The names of the members of [Object.prototype]. Every object made by
    [JSON.parse], by [structuredClone] or by a literal inherits them. *)
Definition Object_prototype : list string :=
  [ "constructor"; "__defineGetter__"; "__defineSetter__"; "hasOwnProperty";
    "__lookupGetter__"; "__lookupSetter__"; "isPrototypeOf";
    "propertyIsEnumerable"; "toString"; "valueOf"; "__proto__";
    "toLocaleString" ].

(** What reading a property gives: [undefined], a value of the document, or
    the member of [Object.prototype] of that name (a function, and for
    ["__proto__"] the object [Object.prototype] itself). *)
Inductive jsmem : Type :=
| Undefined
| Stored (v : jsval)
| Inherited (name : string).

(** ** Primitives of the language *)

Module Js.

(** A value of the document, or a missing one, as a value in memory. *)
Definition mem (v : option jsval) : jsmem :=
  match v with
  | Some x => Stored x
  | None => Undefined
  end.

(** [o[key]] on a plain object: the own property, else the inherited
    member, else [undefined]. *)
Definition get (o : SecretState) (key : string) : jsmem :=
  match o !! key with
  | Some x => Stored x
  | None =>
      if bool_decide (key ∈ Object_prototype) then Inherited key
      else Undefined
  end.

(** What [JSON.stringify] keeps of a value held by a property: a function
    is left out like [undefined], and [Object.prototype], which has no
    enumerable property, is written as the empty object. *)
Definition json (a : jsmem) : option jsval :=
  match a with
  | Undefined => None
  | Stored x => Some x
  | Inherited name =>
      if String.eqb name "__proto__" then Some (VRec ∅) else None
  end.

(** [!!v]: [undefined] and the empty string are falsy, objects are truthy. *)
Definition truthy (v : option jsval) : bool :=
  match v with
  | None => false
  | Some (VStr s) => negb (String.eqb s "")
  | Some (VRec _) => true
  end.

(** [!!a] for a value in memory: every inherited member is truthy. *)
Definition truthy_mem (a : jsmem) : bool :=
  match a with
  | Undefined => false
  | Stored x => truthy (Some x)
  | Inherited _ => true
  end.

(** [a === b]. Two strings are compared by contents and [undefined] equals
    itself. An object of the document equals only itself: every load parses
    the file into fresh objects and a parsed tree shares no node, so the two
    sides of the comparisons of this file are never the same object. An
    inherited member equals only itself. *)
Definition strict_eq (a b : jsmem) : bool :=
  match a, b with
  | Undefined, Undefined => true
  | Stored (VStr s), Stored (VStr t) => String.eqb s t
  | Inherited n, Inherited m => String.eqb n m
  | _, _ => false
  end.

(** [String(c)] for a string or [undefined]. *)
Definition String_ (c : option string) : string :=
  match c with
  | Some s => s
  | None => "undefined"
  end.

(** White space and line terminators below U+0100: TAB, LF, VT, FF, CR,
    SP and NBSP. *)
Definition is_space (c : ascii) : bool :=
  let n := nat_of_ascii c in
  ((9 <=? n) && (n <=? 13) || (n =? 32) || (n =? 160))%nat.

Fixpoint trimStart (s : string) : string :=
  match s with
  | EmptyString => EmptyString
  | String c s' => if is_space c then trimStart s' else s
  end.

(** [trimEnd] keeps a character when it is not a space or when something
    is left after it. *)
Fixpoint trimEnd (s : string) : string :=
  match s with
  | EmptyString => EmptyString
  | String c s' =>
      match trimEnd s' with
      | EmptyString => if is_space c then EmptyString else String c EmptyString
      | t => String c t
      end
  end.

Definition trim (s : string) : string := trimEnd (trimStart s).

(** Lower-case mapping below U+0100: A-Z, and U+00C0..U+00DE but U+00D7. *)
Definition lower_char (c : ascii) : ascii :=
  let n := nat_of_ascii c in
  if ((65 <=? n) && (n <=? 90)
      || (192 <=? n) && (n <=? 222) && negb (n =? 215))%nat
  then ascii_of_nat (n + 32) else c.

Fixpoint toLowerCase (s : string) : string :=
  match s with
  | EmptyString => EmptyString
  | String c s' => String (lower_char c) (toLowerCase s')
  end.

(** [arr.findIndex(p)], counting from [i]; -1 when nothing satisfies [p]. *)
Fixpoint findIndex_from {A} (p : A → bool) (arr : list A) (i : Z) : Z :=
  match arr with
  | [] => -1
  | x :: arr' => if p x then i else findIndex_from p arr' (i + 1)
  end.

Definition findIndex {A} (p : A → bool) (arr : list A) : Z :=
  findIndex_from p arr 0.

(** [arr[i]] for an integral number [i]. *)
Definition index {A} (arr : list A) (i : Z) : option A :=
  if i <? 0 then None else arr !! Z.to_nat i.

(** [arr.length]. *)
Definition length_ {A} (arr : list A) : Z := Z.of_nat (length arr).

End Js.

(** ** The file and the monad of the file operations *)

(** What [secrets.json] holds when it exists: a text that [JSON.parse]
    rejects, or the serialization of a document. *)
Inductive contents : Type :=
| Garbage
| Json (d : SecretState).

(** The file of one user directory; [None] when [fs.existsSync] is false. *)
Abbreviation file := (option contents).

Inductive error : Type :=
| SyntaxError
| TypeError.

(** A computation reads and writes the file and returns or throws. *)
Definition M (A : Type) : Type := file → (error + A) * file.

#[export] Instance M_ret : MRet M := λ A x f, (inr x, f).

#[export] Instance M_bind : MBind M := λ A B k c f,
  match c f with
  | (inr x, f') => k x f'
  | (inl e, f') => (inl e, f')
  end.

Definition throw {A} (e : error) : M A := λ f, (inl e, f).

(** [try { c } catch (error) { h }]. *)
Definition try_catch {A} (c : M A) (h : error → M A) : M A := λ f,
  match c f with
  | (inr x, f') => (inr x, f')
  | (inl e, f') => h e f'
  end.

(** ** Persistent store *)

Definition getSecretState : M SecretState := λ f,
  match f with
  | None => (inr INITIAL_STATE, f)
  | Some Garbage => (inl SyntaxError, f)
  | Some (Json d) => (inr d, f)
  end.

Definition updateSecretState (state : SecretState) : M () := λ _,
  (inr (), Some (Json state)).

(** [secrets[key] = value] as it reaches the file: a property set to
    [undefined] is not serialized. The name ["__proto__"], when the object
    does not own it, reaches the setter of [Object.prototype], which changes
    the prototype or nothing and makes no property; a file can give an
    object its own ["__proto__"], which is then assigned like any other. *)
Definition assign (key : string) (v : option jsval) (secrets : SecretState)
  : SecretState :=
  if bool_decide (key = "__proto__" ∧ secrets !! key = None) then secrets
  else
    match v with
    | Some x => <[key := x]> secrets
    | None => delete key secrets
    end.

(** ** Secret ledger *)

Definition writeSecret (key : string) (v : option jsval) : M () :=
  secrets ← getSecretState;
  updateSecretState (assign key v secrets).

Definition deleteSecret (key : string) : M () :=
  secrets ← getSecretState;
  updateSecretState (delete key secrets).

Definition readSecret (key : string) : M jsmem :=
  secrets ← getSecretState;
  mret (Js.get secrets key).

(** ** Managed rotation *)

(** [secrets.managed[key]] when it is an array. Indexing a primitive string
    gives a character, a number, a function or [undefined], and an inherited
    member of a record is a function or [Object.prototype]: never an array. *)
Definition managed_array (managed : option jsval) (key : string)
  : option (list ManagedKey) :=
  match managed with
  | Some (VRec m) => m !! key
  | _ => None
  end.

(** A method that changes the array [secrets.managed[key]] in place. *)
Definition mutate_array (key : string)
    (f : list ManagedKey → list ManagedKey) (secrets : SecretState)
  : SecretState :=
  match secrets !! "managed" with
  | Some (VRec m) => <["managed" := VRec (alter f key m)]> secrets
  | _ => secrets
  end.

(** The optional [search] argument: an integral number, a string, or
    anything else ([undefined], [null], a number with a fraction, ...), which
    none of the two [typeof] tests lets select an element. *)
Inductive search : Type :=
| SNum (n : Z)
| SStr (s : string)
| SOther.

(** The test of [managed.find] in [rotateManagedSecret]. *)
Definition comment_matches (searchValue : string) (k : ManagedKey) : bool :=
  String.eqb (Js.toLowerCase (Js.trim (Js.String_ (comment k))))
             (Js.toLowerCase (Js.trim searchValue)).

Definition rotateManagedSecret (key : string) (searchValue : search) : M () :=
  secrets ← getSecretState;
  if negb (Js.truthy (secrets !! "managed")) then mret () else
  match managed_array (secrets !! "managed") key with
  | None => mret ()
  | Some managed =>
      if Js.length_ managed =? 0 then mret () else
      let keyData : option ManagedKey := None in
      let keyData :=
        match searchValue with
        | SNum n =>
            if (0 <=? n) && (n <? Js.length_ managed)
            then Js.index managed n else keyData
        | _ => keyData
        end in
      let keyData :=
        match searchValue with
        | SStr s =>
            if 0 <? Z.of_nat (String.length (Js.trim s))
            then List.find (comment_matches s) managed else keyData
        | _ => keyData
        end in
      keyData ←
        match keyData with
        | Some k => mret (Some k)
        | None =>
            currentSecret ← readSecret key;
            let currentIndex :=
              Js.findIndex
                (λ k, Js.strict_eq (Js.mem (value k)) currentSecret) managed in
            mret (match Js.index managed (currentIndex + 1) with
                  | Some k => Some k
                  | None => Js.index managed 0
                  end)
        end;
      match keyData with
      | Some k => writeSecret key (value k)
      | None => throw TypeError
      end
  end.

Definition appendManagedKey (key : string) (c : option string)
    (v : option jsval) : M () :=
  secrets ← getSecretState;
  let secrets :=
    if negb (Js.truthy (secrets !! "managed"))
    then <["managed" := VRec ∅]> secrets else secrets in
  match secrets !! "managed" with
  | Some (VRec m) =>
      let secrets :=
        match m !! key with
        | Some _ => secrets
        | None =>
            (* an inherited member is truthy: no list is made *)
            if bool_decide (key ∈ Object_prototype) then secrets
            else <["managed" := VRec (<[key := []]> m)]> secrets
        end in
      match managed_array (secrets !! "managed") key with
      | Some _ =>
          updateSecretState
            (mutate_array key (λ arr, arr ++ [mkManagedKey c v])%list secrets)
      | None =>
          (* the inherited member has no [push] *)
          throw TypeError
      end
  | _ =>
      (* a non-empty primitive string: no property can be created on it,
         and none of its properties has a [push] *)
      throw TypeError
  end.

Definition spliceManagedKey (key : string) (i : Z) : M () :=
  secrets ← getSecretState;
  if negb (Js.truthy (secrets !! "managed")) then mret () else
  match managed_array (secrets !! "managed") key with
  | None => mret ()
  | Some arr =>
      if (i <? 0) || (Js.length_ arr <=? i) then mret () else
      updateSecretState (mutate_array key (delete (Z.to_nat i)) secrets)
  end.

(** [{ result, index }]. *)
Record probe_result : Type := mkProbe {
  result : bool;
  index : Z;
}.

Definition probeManagedKey (key : string) : M probe_result :=
  secrets ← getSecretState;
  if negb (Js.truthy (secrets !! "managed")) then mret (mkProbe false (-1)) else
  match managed_array (secrets !! "managed") key with
  | None => mret (mkProbe false (-1))
  | Some arr =>
      currentSecret ← readSecret key;
      let i :=
        Js.findIndex (λ k, Js.strict_eq (Js.mem (value k)) currentSecret) arr in
      mret (mkProbe (negb (i =? -1)) i)
  end.

(** [{ comment, selected }]: a managed key without its value. *)
Record ManagedKeyState : Type := mkState {
  state_comment : option string;
  selected : bool;
}.

Abbreviation SecretManagerState := (gmap string (list ManagedKeyState)).

(** [Object.keys(managed)], each key with what [for (... of managed[key])]
    walks through. The enumerable properties of a primitive string are its
    indices; each holds a one-character string, walked through as that single
    string, on which [comment] and [value] are [undefined]. *)
Definition enumerate (managed : jsval) : list (string * list ManagedKey) :=
  match managed with
  | VRec m => map_to_list m
  | VStr s =>
      imap (λ i _, (pretty i, [mkManagedKey None None]))
           (list_ascii_of_string s)
  end.

Definition readManagedSecretsState : M SecretManagerState :=
  secrets ← getSecretState;
  let state : SecretManagerState := ∅ in
  if negb (Js.truthy (secrets !! "managed")) then mret state else
  match secrets !! "managed" with
  | None => mret state
  | Some managed =>
      mret (foldl
              (λ state '(key, arr),
                 (* [state["__proto__"] = []] makes the array the prototype
                    of [state], the records are pushed on it, and [state]
                    gets no property *)
                 if String.eqb key "__proto__" then state else
                 let state := <[key := []]> state in
                 foldl
                   (λ state secret,
                      let sel :=
                        Js.strict_eq (Js.get secrets key)
                                     (Js.mem (value secret)) in
                      alter (λ out, out ++ [mkState (comment secret) sel])%list
                            key state)
                   state arr)
              state (enumerate managed))
  end.

(** The values of [SECRET_KEYS]. *)
Definition SECRET_KEYS : list string :=
  [ "api_key_horde"; "api_key_mancer"; "api_key_vllm"; "api_key_aphrodite";
    "api_key_tabby"; "api_key_openai"; "api_key_novel"; "api_key_claude";
    "deepl"; "libre"; "libre_url"; "lingva_url"; "api_key_openrouter";
    "api_key_scale"; "api_key_ai21"; "scale_cookie"; "oneringtranslator_url";
    "deeplx_url"; "api_key_makersuite"; "api_key_serpapi";
    "api_key_togetherai"; "api_key_mistralai"; "api_key_custom";
    "api_key_ooba"; "api_key_infermaticai"; "api_key_dreamgen";
    "api_key_nomicai"; "api_key_koboldcpp"; "api_key_llamacpp";
    "api_key_cohere"; "api_key_perplexity"; "api_key_groq";
    "api_key_azure_tts"; "api_key_featherless"; "api_key_01ai";
    "api_key_huggingface"; "api_key_stability"; "api_key_blockentropy";
    "api_key_custom_openai_tts"; "api_key_tavily"; "api_key_nanogpt";
    "api_key_bfl"; "api_key_generic"; "api_key_deepseek" ].

(** [LIBRE_URL], [LINGVA_URL], [ONERING_URL], [DEEPLX_URL]. *)
Definition EXPORTABLE_KEYS : list string :=
  [ "libre_url"; "lingva_url"; "oneringtranslator_url"; "deeplx_url" ].

(** This function does its own existence test and parse. *)
Definition readSecretState : M (gmap string bool) := λ f,
  match f with
  | None => (inr ∅, f)
  | Some Garbage => (inl SyntaxError, f)
  | Some (Json secrets) =>
      (inr (foldl
              (λ state key,
                 if String.eqb key "managed" then state
                 else <[key := Js.truthy_mem (Js.get secrets key)]> state)
              ∅ SECRET_KEYS), f)
  end.

Definition getAllSecrets : M (option SecretState) := λ f,
  match f with
  | None => (inr None, f)
  | Some Garbage => (inl SyntaxError, f)
  | Some (Json secrets) => (inr (Some secrets), f)
  end.

(** ** Route handlers *)

Inductive response : Type :=
| sendStatus (code : Z)
| sendFlags (state : gmap string bool)
| sendSecrets (secrets : SecretState)
| sendValue (v : jsmem).

Section Routes.

(** [getConfigValue('allowKeysExposure', false)]. *)
Variable allowKeysExposure : bool.

Definition post_read : M response :=
  try_catch
    (state ← readSecretState; mret (sendFlags state))
    (λ _, mret (sendFlags ∅)).

Definition post_view : M response :=
  if negb allowKeysExposure then mret (sendStatus 403) else
  try_catch
    (secrets ← getAllSecrets;
     match secrets with
     | None => mret (sendStatus 404)
     | Some secrets => mret (sendSecrets secrets)
     end)
    (λ _, mret (sendStatus 500)).

Definition post_find (key : string) : M response :=
  if negb allowKeysExposure && negb (bool_decide (key ∈ EXPORTABLE_KEYS))
  then mret (sendStatus 403) else
  try_catch
    (secret ← readSecret key;
     if negb (Js.truthy_mem secret) then mret (sendStatus 404)
     else mret (sendValue secret))
    (λ _, mret (sendStatus 500)).

End Routes.

Definition post_manager_migrate (key : string) (c : option string)
  : M response :=
  probeResult ← probeManagedKey key;
  if result probeResult then mret (sendStatus 409) else
  currentSecret ← readSecret key;
  (* the value reaches the file through [JSON.stringify] *)
  appendManagedKey key c (Js.json currentSecret);;
  mret (sendStatus 204).

(** [router.post('/write')] and the manager routes that change the file:
    each calls its function and answers 204. *)
Definition post_write (key : string) (v : option jsval) : M response :=
  writeSecret key v;;
  mret (sendStatus 204).

Definition post_manager_rotate (key : string) (searchValue : search)
  : M response :=
  rotateManagedSecret key searchValue;;
  mret (sendStatus 204).

Definition post_manager_append (key : string) (c : option string)
    (v : option jsval) : M response :=
  appendManagedKey key c v;;
  mret (sendStatus 204).

Definition post_manager_splice (key : string) (i : Z) : M response :=
  spliceManagedKey key i;;
  mret (sendStatus 204).

(** The requests that change the file, with bodies as the JSDoc types them:
    keys are strings, values and comments are strings or missing. *)
Inductive request : Type :=
| Write (key : string) (v : option string)
| Rotate (key : string) (s : search)
| Append (key : string) (c : option string) (v : option string)
| Splice (key : string) (i : Z)
| Migrate (key : string) (c : option string).

(** The router: each path with its handler. *)
Definition handle (r : request) : M response :=
  match r with
  | Write key v => post_write key (VStr <$> v)
  | Rotate key s => post_manager_rotate key s
  | Append key c v => post_manager_append key c (VStr <$> v)
  | Splice key i => post_manager_splice key i
  | Migrate key c => post_manager_migrate key c
  end.

Definition request_key (r : request) : string :=
  match r with
  | Write key _ | Rotate key _ | Append key _ _ | Splice key _
  | Migrate key _ => key
  end.

(** The requests of [rs] handled one after the other. *)
Fixpoint handle_all (rs : list request) : M () :=
  match rs with
  | [] => mret ()
  | r :: rs' => handle r;; handle_all rs'
  end.

(** * Vocabulary of the specification *)

Implicit Types (f : file) (d : SecretState) (key : string).
Implicit Types (L arr : list ManagedKey) (k : ManagedKey).
Implicit Types (A : jsmem) (v : option jsval) (c : option string).

(** The file holds the document [d], or is absent and [d] is the initial
    document: [load] returns [d]. *)
Definition loads f d : Prop := getSecretState f = (inr d, f).

(** The managed list of [key]. *)
Definition managed_list d key : option (list ManagedKey) :=
  managed_array (d !! "managed") key.

(** The legacy values: every property but [managed]. *)
Definition flat d : SecretState := delete "managed" d.

(** [j] is the position of the first element of [L] whose value is [A]. *)
Definition first_match A L (j : nat) : Prop :=
  (∃ k, L !! j = Some k ∧ Js.strict_eq (Js.mem (value k)) A = true) ∧
  ∀ i k, (i < j)%nat → L !! i = Some k →
         Js.strict_eq (Js.mem (value k)) A = false.

(** No element of [L] has the value [A]. *)
Definition no_match A L : Prop :=
  ∀ k, k ∈ L → Js.strict_eq (Js.mem (value k)) A = false.

(** [c] repeated [n] times. *)
Fixpoint times (n : nat) (c : M ()) : M () :=
  match n with
  | O => mret ()
  | S n' => c;; times n' c
  end.

(** [rotateManagedSecret key s] run on [f] makes [k] the active key. *)
Definition selects f d key (s : search) k : Prop :=
  rotateManagedSecret key s f =
    (inr (), Some (Json (assign key (value k) d))).

(** [k] follows in [L] the first element whose value is [A], cyclically,
    and is the head of [L] when no element has the value [A]. *)
Definition cyclic_next A L k : Prop :=
  (∀ j, first_match A L j → L !! ((j + 1) mod length L)%nat = Some k) ∧
  (no_match A L → L !! 0%nat = Some k).

(** Neither of the two tests on [searchValue] selects an element. *)
Definition falls_back (s : search) L : Prop :=
  match s with
  | SNum n => ¬ (0 ≤ n < Js.length_ L)
  | SStr t => Js.trim t = "" ∨ ∀ k, k ∈ L → comment_matches t k = false
  | SOther => True
  end.

(** The [managed] property is not a non-empty string: it is absent, empty
    or a record of lists. *)
Definition well_managed d : Prop :=
  match d !! "managed" with
  | Some (VStr s) => s = ""
  | _ => True
  end.

#[global] Instance well_managed_dec d : Decision (well_managed d).
Proof.
  unfold well_managed. destruct (d !! "managed") as [[s|m]|]; apply _.
Defined.

(** The managed lists of the document, none when [managed] is not a record. *)
Definition lists_of d : gmap string (list ManagedKey) :=
  match d !! "managed" with
  | Some (VRec m) => m
  | _ => ∅
  end.

(** [d] with the list of [key] replaced by [L]. *)
Definition with_list key L d : SecretState :=
  <["managed" := VRec (<[key := L]> (lists_of d))]> d.

(** [d] with [{c, v}] put at the end of the list of [key]. *)
Definition appended key c v d : SecretState :=
  with_list key (default [] (managed_list d key) ++ [mkManagedKey c v])%list d.

(** The requests [append(key, c, v)] for the pairs of [es], handled one
    after the other. *)
Fixpoint appends key (es : list (option string * option jsval)) : M () :=
  match es with
  | [] => mret ()
  | (c, v) :: es' => appendManagedKey key c v;; appends key es'
  end.

(** [k], at position [j], is the first element of [L] whose comment matches
    the search [t]. *)
Definition first_comment_match (t : string) L (j : nat) k : Prop :=
  L !! j = Some k ∧ comment_matches t k = true ∧
  ∀ (i : nat) k', (i < j)%nat → L !! i = Some k' → comment_matches t k' = false.

(** The record shown for the element [k] of a list whose key has the active
    value [A]. *)
Definition redact A k : ManagedKeyState :=
  mkState (comment k) (Js.strict_eq A (Js.mem (value k))).

(** What the view walks through under [key]: the managed list of [key] and,
    when [managed] is a non-empty string, the character at index [key]. *)
Definition shown d key : option (list ManagedKey) :=
  if Js.truthy (d !! "managed") then
    match d !! "managed" with
    | Some managed =>
        (list_to_map (enumerate managed) : gmap string (list ManagedKey)) !! key
    | None => None
    end
  else None.

(** [key] names a member of [Object.prototype]. *)
Definition inherited key : Prop := key ∈ Object_prototype.

(** The active value of [key] as the code reads it: [secrets[key]]. *)
Definition active d key : jsmem := Js.get d key.

#[global] Instance inherited_dec key : Decision (inherited key).
Proof. unfold inherited. apply _. Defined.

(** A value that is a string or [undefined]. *)
Definition plain v : Prop := v = None ∨ ∃ s, v = Some (VStr s).

(** The shape that the type [SecretState] declares: [managed] is a record of
    lists, every other property is a string, and so is every value kept in a
    list. *)
Definition typed d : Prop :=
  (∃ m, d !! "managed" = Some (VRec m)) ∧
  (∀ key, key ≠ "managed" → plain (d !! key)) ∧
  (∀ key L k, managed_list d key = Some L → k ∈ L → plain (value k)).

(** * Properties *)

(** ** Running the operations on a loaded document *)

Ltac run :=
  unfold mbind, M_bind, mret, M_ret, throw, try_catch; simpl.

Lemma loads_inv f d :
  loads f d → (f = None ∧ d = INITIAL_STATE) ∨ f = Some (Json d).
Proof.
  unfold loads, getSecretState.
  destruct f as [[|d']|]; intros H; inversion H; auto.
Qed.

Lemma loads_Json d : loads (Some (Json d)) d.
Proof. reflexivity. Qed.

Lemma loads_fresh : loads None INITIAL_STATE.
Proof. reflexivity. Qed.

Lemma loads_fun f d d' : loads f d → loads f d' → d = d'.
Proof. unfold loads. intros H H'. rewrite H in H'. congruence. Qed.

Lemma writeSecret_run f d key v :
  loads f d →
  writeSecret key v f = (inr (), Some (Json (assign key v d))).
Proof. intros H. unfold writeSecret. run. rewrite H. reflexivity. Qed.

Lemma deleteSecret_run f d key :
  loads f d →
  deleteSecret key f = (inr (), Some (Json (delete key d))).
Proof. intros H. unfold deleteSecret. run. rewrite H. reflexivity. Qed.

Lemma readSecret_run f d key :
  loads f d → readSecret key f = (inr (Js.get d key), f).
Proof. intros H. unfold readSecret. run. rewrite H. reflexivity. Qed.

Lemma managed_list_truthy d key L :
  managed_list d key = Some L → Js.truthy (d !! "managed") = true.
Proof.
  unfold managed_list, managed_array.
  destruct (d !! "managed") as [[s|m]|]; intros; simplify_eq; reflexivity.
Qed.

Lemma managed_list_falsy d key :
  Js.truthy (d !! "managed") = false → managed_list d key = None.
Proof.
  intros H. destruct (managed_list d key) eqn:E; [|done].
  apply managed_list_truthy in E. congruence.
Qed.

Lemma managed_list_rec d key L :
  managed_list d key = Some L ↔
  ∃ m, d !! "managed" = Some (VRec m) ∧ m !! key = Some L.
Proof.
  unfold managed_list, managed_array. split.
  - destruct (d !! "managed") as [[s|m]|]; intros; simplify_eq; eauto.
  - intros (m & -> & ?). done.
Qed.

(** ** [findIndex] *)

Lemma findIndex_from_spec {T} (p : T → bool) (l : list T) (i : Z) :
  (Js.findIndex_from p l i = -1 ∧ ∀ x, x ∈ l → p x = false) ∨
  (∃ (j : nat) x, Js.findIndex_from p l i = i + Z.of_nat j ∧
     l !! j = Some x ∧ p x = true ∧
     ∀ (j' : nat) y, (j' < j)%nat → l !! j' = Some y → p y = false) ∨
  (i < 0).
Proof.
  destruct (decide (i < 0)) as [|Hi]; [auto|].
  revert i Hi. induction l as [|x l IH]; intros i Hi; simpl.
  - left. split; [done|]. intros x Hx. by apply elem_of_nil in Hx.
  - destruct (p x) eqn:Hp.
    + right; left. exists 0%nat, x. repeat split; [lia|done|lia].
    + destruct (IH (i + 1) ltac:(lia)) as [[E Hall]|[(j & y & E & Hj & Hy & Hlt)|?]];
        [| |lia].
      * left. split; [done|]. intros z Hz.
        apply elem_of_cons in Hz as [->|Hz]; auto.
      * right; left. exists (S j), y. repeat split; [lia|done|done|].
        intros [|j'] z Hlt' Hz; simpl in Hz; [by simplify_eq|].
        apply (Hlt j'); [lia|done].
Qed.

Lemma findIndex_first A L (j : nat) :
  first_match A L j →
  Js.findIndex (λ k, Js.strict_eq (Js.mem (value k)) A) L = Z.of_nat j.
Proof.
  intros [(k & Hk & Hv) Hbefore]. unfold Js.findIndex.
  destruct (findIndex_from_spec (λ k, Js.strict_eq (Js.mem (value k)) A) L 0)
    as [[_ Hall]|[(j0 & x & E & Hx & Hpx & Hlt)|?]]; [| |lia].
  - rewrite Hall in Hv; [done|]. by eapply list_elem_of_lookup_2.
  - rewrite E. destruct (Nat.lt_trichotomy j0 j) as [Hlt'|[->|Hgt]]; [|lia|].
    + rewrite (Hbefore j0 x Hlt' Hx) in Hpx. done.
    + rewrite (Hlt j k Hgt Hk) in Hv. done.
Qed.

Lemma findIndex_none A L :
  no_match A L → Js.findIndex (λ k, Js.strict_eq (Js.mem (value k)) A) L = -1.
Proof.
  intros Hno. unfold Js.findIndex.
  destruct (findIndex_from_spec (λ k, Js.strict_eq (Js.mem (value k)) A) L 0)
    as [[E _]|[(j0 & x & E & Hx & Hpx & Hlt)|?]]; [done| |lia].
  rewrite Hno in Hpx; [done|]. by eapply list_elem_of_lookup_2.
Qed.

Lemma first_match_or_none A L : (∃ j, first_match A L j) ∨ no_match A L.
Proof.
  destruct (findIndex_from_spec (λ k, Js.strict_eq (Js.mem (value k)) A) L 0)
    as [[_ Hall]|[(j0 & x & E & Hx & Hpx & Hlt)|?]]; [by right| |lia].
  left. exists j0. split; [eauto|]. exact Hlt.
Qed.

(** ** [rotateManagedSecret] *)

Lemma length_zero_iff L : (Js.length_ L =? 0) = false ↔ L ≠ [].
Proof.
  unfold Js.length_. destruct L; simpl; split; intros; try done; lia.
Qed.

Lemma find_none_iff {T} (p : T → bool) (l : list T) :
  List.find p l = None ↔ ∀ x, x ∈ l → p x = false.
Proof.
  split.
  - intros H x Hx. apply list_elem_of_In in Hx.
    exact (List.find_none p l H x Hx).
  - intros H. destruct (List.find p l) as [x|] eqn:E; [|done].
    apply List.find_some in E as [Hin Hp].
    apply list_elem_of_In in Hin. rewrite (H x Hin) in Hp. done.
Qed.

Lemma find_first {T} (p : T → bool) (l : list T) x :
  List.find p l = Some x ↔
  ∃ j : nat, l !! j = Some x ∧ p x = true ∧
    ∀ (i : nat) y, (i < j)%nat → l !! i = Some y → p y = false.
Proof.
  revert x. induction l as [|y l IH]; intros x; simpl.
  - split; [done|]. intros (j & Hj & _). by destruct j.
  - destruct (p y) eqn:Hy.
    + split.
      * intros [= ->]. exists 0%nat. repeat split; [done|]. intros; lia.
      * intros ([|j] & Hj & Hx & Hlt); simpl in Hj; [by simplify_eq|].
        rewrite (Hlt 0%nat y) in Hy; [done|lia|done].
    + rewrite IH. split.
      * intros (j & Hj & Hx & Hlt). exists (S j). repeat split; [done..|].
        intros [|i] z Hi Hz; simpl in Hz; [by simplify_eq|].
        apply (Hlt i); [lia|done].
      * intros ([|j] & Hj & Hx & Hlt); simpl in Hj; [simplify_eq; congruence|].
        exists j. repeat split; [done..|].
        intros i z Hi Hz. apply (Hlt (S i)); [lia|done].
Qed.

Lemma string_length_zero (s : string) :
  (0 <? Z.of_nat (String.length s)) = false ↔ s = "".
Proof. destruct s; simpl; split; intros; try done; lia. Qed.

(** What the fall-back computes is the cyclic successor. *)
Lemma fallback_cyclic_next A L :
  L ≠ [] →
  ∃ k,
    match Js.index L (Js.findIndex (λ k, Js.strict_eq (Js.mem (value k)) A) L + 1) with
    | Some k' => Some k'
    | None => Js.index L 0
    end = Some k ∧ cyclic_next A L k.
Proof.
  intros Hne. destruct L as [|k0 L0] eqn:EL; [done|]. rewrite <- EL in *.
  assert (Hlen : (0 < length L)%nat) by (subst; simpl; lia).
  assert (H0 : L !! 0%nat = Some k0) by (by subst).
  destruct (first_match_or_none A L) as [[j Hj]|Hno].
  - rewrite (findIndex_first _ _ _ Hj).
    pose proof Hj as [(kj & Hkj & _) _].
    apply lookup_lt_Some in Hkj as Hjlt.
    unfold Js.index.
    replace (Z.of_nat j + 1 <? 0) with false by lia.
    replace (Z.to_nat (Z.of_nat j + 1)) with (S j) by lia.
    destruct (decide (S j < length L)%nat) as [Hin|Hout].
    + destruct (lookup_lt_is_Some_2 L (S j) Hin) as [k Hk].
      exists k. rewrite Hk. split; [done|]. split.
      * intros j' Hj'.
        assert (j' = j) as ->.
        { apply Nat2Z.inj. rewrite <- (findIndex_first _ _ _ Hj').
          by rewrite (findIndex_first _ _ _ Hj). }
        rewrite Nat.mod_small by lia. by rewrite Nat.add_1_r.
      * intros Hno. destruct Hj as [(kj' & Hkj' & Hv) _].
        rewrite Hno in Hv; [done|]. by eapply list_elem_of_lookup_2.
    + rewrite (lookup_ge_None_2 L (S j)) by lia.
      exists k0. simpl. split; [done|]. split.
      * intros j' Hj'.
        assert (j' = j) as ->.
        { apply Nat2Z.inj. rewrite <- (findIndex_first _ _ _ Hj').
          by rewrite (findIndex_first _ _ _ Hj). }
        replace (j + 1)%nat with (length L) by lia.
        by rewrite Nat.Div0.mod_same.
      * done.
  - rewrite (findIndex_none _ _ Hno). exists k0.
    change (-1 + 1) with 0. unfold Js.index.
    change (0 <? 0) with false. change (Z.to_nat 0) with 0%nat. cbv iota.
    rewrite H0. split; [done|]. split; [|done].
    intros j [(kj & Hkj & Hv) _].
    rewrite Hno in Hv; [done|]. by eapply list_elem_of_lookup_2.
Qed.

Lemma rotate_by_index f d key L (n : Z) k :
  loads f d → managed_list d key = Some L →
  0 ≤ n < Js.length_ L → L !! Z.to_nat n = Some k →
  selects f d key (SNum n) k.
Proof.
  intros Hf HL Hn Hk. unfold selects, rotateManagedSecret. run. rewrite Hf.
  rewrite (managed_list_truthy _ _ _ HL). simpl.
  unfold managed_list in HL. rewrite HL.
  assert (L ≠ []) as Hne by (intros ->; unfold Js.length_ in Hn; simpl in Hn; lia).
  rewrite (proj2 (length_zero_iff L) Hne).
  replace (0 <=? n) with true by lia.
  replace (n <? Js.length_ L) with true by lia. simpl.
  unfold Js.index. replace (n <? 0) with false by lia. rewrite Hk.
  by apply writeSecret_run.
Qed.

Lemma rotate_by_comment f d key L (t : string) k :
  loads f d → managed_list d key = Some L →
  Js.trim t ≠ "" → List.find (comment_matches t) L = Some k →
  selects f d key (SStr t) k.
Proof.
  intros Hf HL Ht Hk. unfold selects, rotateManagedSecret. run. rewrite Hf.
  rewrite (managed_list_truthy _ _ _ HL). simpl.
  unfold managed_list in HL. rewrite HL.
  assert (L ≠ []) as Hne by (intros ->; done).
  rewrite (proj2 (length_zero_iff L) Hne).
  destruct (0 <? Z.of_nat (String.length (Js.trim t))) eqn:E.
  - rewrite Hk. by apply writeSecret_run.
  - apply string_length_zero in E. done.
Qed.

Lemma rotate_fallback f d key (s : search) L :
  loads f d → managed_list d key = Some L → L ≠ [] → falls_back s L →
  ∃ k, selects f d key s k ∧ cyclic_next (Js.get d key) L k.
Proof.
  intros Hf HL Hne Hs.
  destruct (fallback_cyclic_next (Js.get d key) L Hne) as (k & Hk & Hnext).
  exists k. split; [|done].
  unfold selects, rotateManagedSecret. run. rewrite Hf.
  rewrite (managed_list_truthy _ _ _ HL). simpl.
  unfold managed_list in HL. rewrite HL.
  rewrite (proj2 (length_zero_iff L) Hne).
  assert (Hread := readSecret_run _ _ key Hf).
  assert (Hwrite := writeSecret_run _ _ key (value k) Hf).
  destruct s as [n|t|]; simpl in Hs.
  - destruct ((0 <=? n) && (n <? Js.length_ L)) eqn:E.
    + apply andb_prop in E as [E1 E2]. lia.
    + rewrite Hread, Hk. exact Hwrite.
  - destruct (0 <? Z.of_nat (String.length (Js.trim t))) eqn:E.
    + destruct Hs as [Ht|Hall].
      * rewrite Ht in E. done.
      * rewrite (proj2 (find_none_iff _ _) Hall). rewrite Hread, Hk.
        exact Hwrite.
    + rewrite Hread, Hk. exact Hwrite.
  - rewrite Hread, Hk. exact Hwrite.
Qed.

Lemma rotate_nothing f d key (s : search) :
  loads f d →
  managed_list d key = None ∨ managed_list d key = Some [] →
  rotateManagedSecret key s f = (inr (), f).
Proof.
  intros Hf HL. unfold rotateManagedSecret. run. rewrite Hf.
  destruct (Js.truthy (d !! "managed")) eqn:Et; simpl; [|done].
  unfold managed_list in HL. destruct HL as [-> | ->]; done.
Qed.

Lemma assign_eq d key v :
  key ≠ "__proto__" →
  assign key v d = match v with
                   | Some x => <[key := x]> d
                   | None => delete key d
                   end.
Proof.
  intros Hne. unfold assign. rewrite bool_decide_eq_false_2; [done|].
  by intros [? _].
Qed.

Lemma assign_proto d v :
  d !! "__proto__" = None → assign "__proto__" v d = d.
Proof. intros H. unfold assign. by rewrite bool_decide_eq_true_2. Qed.

Lemma assign_lookup d key v : key ≠ "__proto__" → assign key v d !! key = v.
Proof.
  intros Hne. rewrite assign_eq by done.
  destruct v; [apply lookup_insert_eq | apply lookup_delete_eq].
Qed.

Lemma assign_lookup_ne d key key' v :
  key ≠ key' → assign key v d !! key' = d !! key'.
Proof.
  intros. unfold assign. case_bool_decide; [done|].
  destruct v; simpl; [by apply lookup_insert_ne | by apply lookup_delete_ne].
Qed.

Lemma assign_assign d key v v' :
  key ≠ "__proto__" → assign key v' (assign key v d) = assign key v' d.
Proof.
  intros Hne. rewrite !assign_eq by done. destruct v, v'; simpl.
  - apply insert_insert_eq.
  - apply delete_insert_eq.
  - apply insert_delete_eq.
  - apply delete_delete_eq.
Qed.

Lemma assign_own d key v x :
  d !! key = Some x →
  assign key v d = match v with
                   | Some y => <[key := y]> d
                   | None => delete key d
                   end.
Proof.
  intros H. unfold assign. rewrite bool_decide_eq_false_2; [done|].
  rewrite H. by intros [_ ?].
Qed.

Lemma assign_idemp d key v : assign key v (assign key v d) = assign key v d.
Proof.
  destruct (decide (key = "__proto__")) as [->|Hne];
    [|by apply assign_assign].
  destruct (d !! "__proto__") as [x|] eqn:E.
  - rewrite (assign_own d _ v x E). destruct v as [y|].
    + rewrite (assign_own _ _ _ y (lookup_insert_eq _ _ _)).
      apply insert_insert_eq.
    + apply assign_proto. apply lookup_delete_eq.
  - rewrite (assign_proto d v E). by apply assign_proto.
Qed.

(** Reading what an assignment under another name than ["__proto__"] left. *)
Lemma get_assign d key v :
  key ≠ "__proto__" →
  Js.get (assign key v d) key =
    match v with
    | Some x => Stored x
    | None => if bool_decide (inherited key) then Inherited key else Undefined
    end.
Proof.
  intros Hne. unfold Js.get. rewrite assign_lookup by done. by destruct v.
Qed.

Lemma get_assign_ne d key key' v :
  key ≠ key' → Js.get (assign key v d) key' = Js.get d key'.
Proof. intros Hne. unfold Js.get. by rewrite assign_lookup_ne. Qed.

Lemma get_lookup d key x : d !! key = Some x → Js.get d key = Stored x.
Proof. intros H. unfold Js.get. by rewrite H. Qed.

Lemma get_unset d key :
  d !! key = None → ∀ x, Js.get d key ≠ Stored x.
Proof. intros H x. unfold Js.get. rewrite H. by case_bool_decide. Qed.

Lemma strict_eq_stored_unset d key (x : string) :
  d !! key = None → Js.strict_eq (Stored (VStr x)) (Js.get d key) = false.
Proof. intros H. unfold Js.get. rewrite H. by case_bool_decide. Qed.

Lemma falls_back_no_search (s : search) L :
  s = SOther ∨ s = SStr "" → falls_back s L.
Proof. intros [-> | ->]; simpl; auto. Qed.

Lemma times_S (n : nat) (c : M ()) f f' :
  c f = (inr (), f') → times (S n) c f = times n c f'.
Proof. intros H. simpl. unfold mbind, M_bind. by rewrite H. Qed.

(** *** The cycle over a list of distinct strings *)

Section Cycle.

Variables (key : string) (s : search) (d : SecretState).
Variables (L : list ManagedKey) (vs : list string).

Hypothesis Hs : s = SOther ∨ s = SStr "".
Hypothesis HL : managed_list d key = Some L.
Hypothesis Hne : L ≠ [].
Hypothesis Hvs : value <$> L = (λ x, Some (VStr x)) <$> vs.
Hypothesis Hdup : NoDup vs.
Hypothesis Hunset : d !! key = None.
Hypothesis Hproto : key ≠ "__proto__".

Lemma cycle_key_not_managed : key ≠ "managed".
Proof using All.
  intros ->. apply managed_list_rec in HL as (m & Hm & _). congruence.
Qed.

Lemma cycle_length : length vs = length L.
Proof using All.
  rewrite <- (length_fmap value L), Hvs. symmetry. apply length_fmap.
Qed.

Lemma cycle_value (j : nat) k :
  L !! j = Some k → ∃ x, vs !! j = Some x ∧ value k = Some (VStr x).
Proof using All.
  intros Hk.
  assert (H : (value <$> L) !! j = Some (value k))
    by (rewrite list_lookup_fmap, Hk; done).
  rewrite Hvs, list_lookup_fmap in H.
  destruct (vs !! j) as [x|]; simpl in H; [|done].
  exists x. split; [done|]. congruence.
Qed.

Lemma cycle_managed_list v : managed_list (assign key v d) key = Some L.
Proof using All.
  unfold managed_list in *.
  by rewrite (assign_lookup_ne _ _ _ _ cycle_key_not_managed).
Qed.

Lemma cycle_first_match (j : nat) x :
  vs !! j = Some x → first_match (Stored (VStr x)) L j.
Proof using All.
  intros Hx. split.
  - assert (j < length L)%nat as Hlt
      by (rewrite <- cycle_length; by eapply lookup_lt_Some).
    destruct (lookup_lt_is_Some_2 L j Hlt) as [k Hk].
    exists k. split; [done|].
    destruct (cycle_value j k Hk) as (x' & Hx' & ->).
    simplify_eq. simpl. apply String.eqb_refl.
  - intros i k Hi Hk.
    destruct (cycle_value i k Hk) as (y & Hy & ->). simpl.
    apply String.eqb_neq. intros ->.
    pose proof (NoDup_lookup vs i j x Hdup Hy Hx). lia.
Qed.

Lemma cycle_no_match : no_match (Js.get d key) L.
Proof using All.
  intros k Hk. apply list_elem_of_lookup in Hk as [j Hj].
  destruct (cycle_value j k Hj) as (x & _ & ->).
  by apply strict_eq_stored_unset.
Qed.

(** One rotation from the unset active value selects the head. *)
Lemma cycle_start f :
  loads f d →
  ∃ x, vs !! 0%nat = Some x ∧
    rotateManagedSecret key s f =
      (inr (), Some (Json (assign key (Some (VStr x)) d))).
Proof using All.
  intros Hf.
  destruct (rotate_fallback f d key s L Hf HL Hne
              (falls_back_no_search s L Hs)) as (k & Hsel & _ & Hhead).
  specialize (Hhead cycle_no_match).
  destruct (cycle_value _ _ Hhead) as (x & Hx & Hv).
  exists x. split; [done|]. unfold selects in Hsel. by rewrite Hv in Hsel.
Qed.

(** One rotation from the [j]-th value selects the next one, cyclically. *)
Lemma cycle_step (j : nat) x :
  vs !! j = Some x →
  ∃ y, vs !! ((j + 1) mod length vs)%nat = Some y ∧
    rotateManagedSecret key s (Some (Json (assign key (Some (VStr x)) d))) =
      (inr (), Some (Json (assign key (Some (VStr y)) d))).
Proof using All.
  intros Hx.
  set (d1 := assign key (Some (VStr x)) d).
  destruct (rotate_fallback (Some (Json d1)) d1 key s L (loads_Json d1)
              (cycle_managed_list _) Hne (falls_back_no_search s L Hs))
    as (k & Hsel & Hnext & _).
  unfold d1 in Hnext at 1. rewrite get_assign in Hnext by done.
  specialize (Hnext j (cycle_first_match j x Hx)).
  destruct (cycle_value _ _ Hnext) as (y & Hy & Hv).
  exists y. rewrite cycle_length. split; [done|].
  unfold selects in Hsel. rewrite Hv in Hsel. unfold d1 in Hsel.
  by rewrite assign_assign in Hsel.
Qed.

Lemma cycle_steps (n j : nat) x :
  vs !! j = Some x →
  ∃ y, vs !! ((j + n) mod length vs)%nat = Some y ∧
    times n (rotateManagedSecret key s)
          (Some (Json (assign key (Some (VStr x)) d))) =
      (inr (), Some (Json (assign key (Some (VStr y)) d))).
Proof using All.
  revert j x. induction n as [|n IH]; intros j x Hx.
  - exists x. split; [|done].
    rewrite Nat.add_0_r, Nat.mod_small; [done|]. by eapply lookup_lt_Some.
  - destruct (cycle_step j x Hx) as (y & Hy & Hrun).
    destruct (IH _ y Hy) as (z & Hz & Hruns).
    exists z. split.
    + rewrite <- Hz. f_equal.
      rewrite Nat.Div0.add_mod_idemp_l. f_equal. lia.
    + rewrite (times_S _ _ _ _ Hrun). exact Hruns.
Qed.

(** After [n + 1] rotations the active value is the [n mod N]-th. *)
Lemma cycle_all f (n : nat) :
  loads f d →
  ∃ d', times (S n) (rotateManagedSecret key s) f = (inr (), Some (Json d')) ∧
        d' !! key = VStr <$> vs !! (n mod length vs)%nat.
Proof using All.
  intros Hf. destruct (cycle_start f Hf) as (x & Hx & Hrun).
  destruct (cycle_steps n 0 x Hx) as (y & Hy & Hruns).
  exists (assign key (Some (VStr y)) d). split.
  - rewrite (times_S _ _ _ _ Hrun). exact Hruns.
  - rewrite assign_lookup by done. simpl in Hy. by rewrite Hy.
Qed.

End Cycle.

Lemma strict_eq_undefined k :
  Js.strict_eq (Js.mem (value k)) Undefined = true ↔ value k = None.
Proof. destruct (value k) as [[x|m]|]; simpl; split; done. Qed.

Lemma no_match_inherited (name : string) L : no_match (Inherited name) L.
Proof. intros k _. by destruct (value k) as [[x|m]|]. Qed.

(** C1, as stated, at an absent active value: a key with nothing saved is
    migrated, which stores an element without a value, and a second element
    is appended. The active value is absent, yet the rotation does not take
    the head: [undefined === undefined] finds the head as the current
    element, and the value of the second element becomes active. *)
Lemma rotate_absent_matches_missing :
  let first := mkManagedKey (Some "first") None in
  let second := mkManagedKey (Some "second") (Some (VStr "v2")) in
  let d : SecretState := {[ "managed" := VRec {[ "K" := [first; second] ]} ]} in
  (post_manager_migrate "K" (Some "first");;
   appendManagedKey "K" (Some "second") (Some (VStr "v2"))) None =
    (inr (), Some (Json d)) ∧
  managed_list d "K" = Some [first; second] ∧
  active d "K" = Undefined ∧
  rotateManagedSecret "K" SOther (Some (Json d)) =
    (inr (), Some (Json (<["K" := VStr "v2"]> d))) ∧
  <["K" := VStr "v2"]> d !! "K" ≠ value first.
Proof.
  intros first second d. repeat split; try (vm_compute; reflexivity).
  rewrite lookup_insert_eq. discriminate.
Qed.

(** C1, amended. Rotation without a search. On a loaded document [d], with
    [search] empty or absent, and [A] the active value as the rotation reads
    it, [secrets[key]]:
    - when the managed list [L] of [key] is not empty, the rotation succeeds
      and writes the value of the element [k] that follows the first element
      whose value is [===] to [A] (wrapping to the head after the last
      element), and the value of the head when no element has a value [===]
      to [A]; under every key but ["__proto__"], where the assignment is
      ignored, that value is then the property [key] of the document;
    - an absent [A] is [===] to a missing value and to nothing else, so it
      matches the first element without a value, if there is one; an
      inherited member of [Object.prototype] matches no element;
    - when [L] is absent or empty the rotation changes nothing;
    - over a list of pairwise distinct strings [vs] ([a, b, c]), from an
      unset active value and under a key other than ["__proto__"], the
      [n+1]-th rotation leaves the active value [vs !! (n mod N)]:
      a, b, c, a, ... *)
Theorem rotate_without_search f d key (s : search) :
  loads f d →
  s = SOther ∨ s = SStr "" →
  (∀ L, managed_list d key = Some L → L ≠ [] →
     ∃ k, selects f d key s k ∧
          (key ≠ "__proto__" → assign key (value k) d !! key = value k) ∧
          cyclic_next (active d key) L k) ∧
  (∀ k, Js.strict_eq (Js.mem (value k)) Undefined = true ↔ value k = None) ∧
  (∀ name L, no_match (Inherited name) L) ∧
  (managed_list d key = None ∨ managed_list d key = Some [] →
     rotateManagedSecret key s f = (inr (), f)) ∧
  (∀ L (vs : list string),
     managed_list d key = Some L → L ≠ [] →
     value <$> L = (λ x, Some (VStr x)) <$> vs → NoDup vs →
     d !! key = None → key ≠ "__proto__" →
     ∀ n : nat, ∃ d',
       times (S n) (rotateManagedSecret key s) f = (inr (), Some (Json d')) ∧
       d' !! key = VStr <$> vs !! (n mod length vs)%nat).
Proof.
  intros Hf Hs. split; [|split; [|split; [|split]]].
  - intros L HL Hne.
    destruct (rotate_fallback f d key s L Hf HL Hne
                (falls_back_no_search s L Hs)) as (k & Hsel & Hnext).
    exists k. split; [done|]. split; [|done].
    intros Hproto. by apply assign_lookup.
  - apply strict_eq_undefined.
  - apply no_match_inherited.
  - intros HL. by apply rotate_nothing with d.
  - intros L vs HL Hne Hvs Hdup Hunset Hproto n.
    by apply (cycle_all key s d L vs).
Qed.

(** Three keys a, b, c: the fourth rotation is back on a. *)
Lemma rotate_without_search_witness :
  let L := [mkManagedKey (Some "first") (Some (VStr "a"));
            mkManagedKey (Some "second") (Some (VStr "b"));
            mkManagedKey (Some "third") (Some (VStr "c"))] in
  let d : SecretState := {[ "managed" := VRec {[ "K" := L ]} ]} in
  ∃ d', times 4 (rotateManagedSecret "K" SOther) (Some (Json d)) =
          (inr (), Some (Json d')) ∧
        d' !! "K" = Some (VStr "a").
Proof.
  intros L d.
  destruct (rotate_without_search (Some (Json d)) d "K" SOther
              (loads_Json d) (or_introl eq_refl)) as (_ & _ & _ & _ & Hcycle).
  apply (Hcycle L ["a"; "b"; "c"]); try reflexivity; try discriminate.
  apply (bool_decide_unpack _). vm_compute. exact I.
Defined.

(** ** [appendManagedKey], [spliceManagedKey] and [probeManagedKey] *)

Lemma managed_list_lists_of d key : managed_list d key = lists_of d !! key.
Proof.
  unfold managed_list, managed_array, lists_of.
  destruct (d !! "managed") as [[s|m]|]; try done.
Qed.

Lemma managed_list_with_list d key L : managed_list (with_list key L d) key = Some L.
Proof.
  unfold managed_list, with_list, managed_array.
  rewrite lookup_insert_eq. apply lookup_insert_eq.
Qed.

Lemma managed_list_with_list_ne d key key' L :
  key ≠ key' → managed_list (with_list key L d) key' = managed_list d key'.
Proof.
  intros Hne. rewrite (managed_list_lists_of d).
  unfold managed_list, with_list, managed_array.
  rewrite lookup_insert_eq. by apply lookup_insert_ne.
Qed.

Lemma lookup_with_list d key key' L :
  key' ≠ "managed" → with_list key L d !! key' = d !! key'.
Proof. intros Hne. unfold with_list. by apply lookup_insert_ne. Qed.

Lemma flat_with_list d key L : flat (with_list key L d) = flat d.
Proof. unfold flat, with_list. apply delete_insert_eq. Qed.

Lemma alter_lookup {T} (g : T → T) (m : gmap string T) key x :
  m !! key = Some x → alter g key m = <[key := g x]> m.
Proof.
  intros H. rewrite <- (insert_id m key x H) at 1. apply alter_insert_eq.
Qed.

Lemma mutate_array_run d key L (g : list ManagedKey → list ManagedKey) :
  managed_list d key = Some L →
  mutate_array key g d = with_list key (g L) d.
Proof.
  intros HL. apply managed_list_rec in HL as (m & Hm & HL).
  unfold mutate_array, with_list, lists_of. rewrite Hm.
  by rewrite (alter_lookup g m key L HL).
Qed.

(** The body of [appendManagedKey] once [managed] is a record. *)
Lemma append_on_record d (m : gmap string (list ManagedKey)) key c v f :
  d !! "managed" = Some (VRec m) →
  match
    managed_array
      (match m !! key with
       | Some _ => d
       | None =>
           if bool_decide (key ∈ Object_prototype) then d
           else <["managed" := VRec (<[key := []]> m)]> d
       end !! "managed") key
  with
  | Some _ =>
      updateSecretState
        (mutate_array key (λ arr, arr ++ [mkManagedKey c v])%list
           match m !! key with
           | Some _ => d
           | None =>
               if bool_decide (key ∈ Object_prototype) then d
               else <["managed" := VRec (<[key := []]> m)]> d
           end)
  | None => throw TypeError
  end f =
  if bool_decide (m !! key = None ∧ inherited key)
  then (inl TypeError, f)
  else (inr (),
        Some (Json (<["managed" :=
                       VRec (<[key := (default [] (m !! key) ++
                                       [mkManagedKey c v])%list]> m)]> d))).
Proof.
  intros Hm. destruct (m !! key) as [L|] eqn:EL.
  - rewrite bool_decide_eq_false_2 by (by intros [? _]).
    rewrite Hm. simpl. rewrite EL. unfold updateSecretState, mutate_array.
    rewrite Hm. by rewrite (alter_lookup _ m key L EL).
  - unfold inherited. case_bool_decide as Hin.
    + rewrite bool_decide_eq_true_2 by done. rewrite Hm. simpl. by rewrite EL.
    + rewrite bool_decide_eq_false_2 by (by intros [_ ?]).
      rewrite lookup_insert_eq. simpl. rewrite lookup_insert_eq.
      unfold updateSecretState, mutate_array.
      rewrite lookup_insert_eq, alter_insert_eq.
      by rewrite !insert_insert_eq.
Qed.

(** [appendManagedKey] on a loaded document, case by case. *)
Lemma appendManagedKey_cases f d key c v :
  loads f d →
  appendManagedKey key c v f =
    if bool_decide (well_managed d ∧
                    (managed_list d key = None → ¬ inherited key))
    then (inr (), Some (Json (appended key c v d)))
    else (inl TypeError, f).
Proof.
  intros Hf.
  destruct (d !! "managed") as [[s|m]|] eqn:Em.
  - destruct s as [|a s].
    + assert (Hwm : well_managed d) by (unfold well_managed; by rewrite Em).
      assert (HL : managed_list d key = None)
        by (unfold managed_list; by rewrite Em).
      assert (Happ : appended key c v d =
                     <["managed" := VRec (<[key := [mkManagedKey c v]]> ∅)]> d).
      { unfold appended, with_list, lists_of. by rewrite HL, Em. }
      unfold appendManagedKey, mbind, M_bind. rewrite Hf. cbv zeta.
      rewrite Em. cbn [Js.truthy negb String.eqb]. rewrite lookup_insert_eq.
      etrans; [exact (append_on_record _ ∅ key c v f (lookup_insert_eq _ _ _))|].
      rewrite lookup_empty, insert_insert_eq, Happ. simpl.
      case_bool_decide as H1; case_bool_decide as H2; try done.
      * destruct H2 as [_ H2]. destruct H1 as [_ H1]. by destruct (H2 HL).
      * destruct H2. split; [done|]. intros _ Hin. by apply H1.
    + unfold appendManagedKey, mbind, M_bind. rewrite Hf. cbv zeta.
      rewrite Em. cbn [Js.truthy negb String.eqb]. rewrite Em.
      rewrite bool_decide_eq_false_2; [done|].
      intros [Hwm _]. unfold well_managed in Hwm. by rewrite Em in Hwm.
  - assert (Hwm : well_managed d) by (unfold well_managed; by rewrite Em).
    assert (HL : managed_list d key = m !! key)
      by (unfold managed_list; by rewrite Em).
    assert (Happ : appended key c v d =
                   <["managed" := VRec (<[key := (default [] (m !! key) ++
                                          [mkManagedKey c v])%list]> m)]> d).
    { unfold appended, with_list, lists_of. by rewrite HL, Em. }
    unfold appendManagedKey, mbind, M_bind. rewrite Hf. cbv zeta.
    rewrite Em. cbn [Js.truthy negb]. rewrite Em.
    etrans; [exact (append_on_record d m key c v f Em)|]. rewrite Happ.
    case_bool_decide as H1; case_bool_decide as H2; try done.
    + destruct H2 as [_ H2]. destruct H1 as [H1 H1']. rewrite HL in H2.
      by destruct (H2 H1).
    + destruct H2. split; [done|]. rewrite HL. intros Hnone Hin.
      by apply H1.
  - assert (Hwm : well_managed d) by (unfold well_managed; by rewrite Em).
    assert (HL : managed_list d key = None)
      by (unfold managed_list; by rewrite Em).
    assert (Happ : appended key c v d =
                   <["managed" := VRec (<[key := [mkManagedKey c v]]> ∅)]> d).
    { unfold appended, with_list, lists_of. by rewrite HL, Em. }
    unfold appendManagedKey, mbind, M_bind. rewrite Hf. cbv zeta.
    rewrite Em. cbn [Js.truthy negb]. rewrite lookup_insert_eq.
    etrans; [exact (append_on_record _ ∅ key c v f (lookup_insert_eq _ _ _))|].
    rewrite lookup_empty, insert_insert_eq, Happ. simpl.
    case_bool_decide as H1; case_bool_decide as H2; try done.
    + destruct H2 as [_ H2]. destruct H1 as [_ H1]. by destruct (H2 HL).
    + destruct H2. split; [done|]. intros _ Hin. by apply H1.
Qed.

Lemma appendManagedKey_run f d key c v :
  loads f d → well_managed d →
  (managed_list d key = None → ¬ inherited key) →
  appendManagedKey key c v f = (inr (), Some (Json (appended key c v d))).
Proof.
  intros Hf Hwm Hkey. rewrite (appendManagedKey_cases f d key c v Hf).
  by rewrite bool_decide_eq_true_2.
Qed.

Lemma appendManagedKey_throws f d key c v :
  loads f d → ¬ well_managed d →
  appendManagedKey key c v f = (inl TypeError, f).
Proof.
  intros Hf Hwm. rewrite (appendManagedKey_cases f d key c v Hf).
  rewrite bool_decide_eq_false_2; [done|]. by intros [? _].
Qed.

Lemma appendManagedKey_throws_inherited f d key c v :
  loads f d → managed_list d key = None → inherited key →
  appendManagedKey key c v f = (inl TypeError, f).
Proof.
  intros Hf HL Hin. rewrite (appendManagedKey_cases f d key c v Hf).
  rewrite bool_decide_eq_false_2; [done|]. intros [_ H]. by apply H.
Qed.

Lemma spliceManagedKey_run f d key L (i : Z) :
  loads f d → managed_list d key = Some L → 0 ≤ i < Js.length_ L →
  spliceManagedKey key i f =
    (inr (), Some (Json (with_list key (delete (Z.to_nat i) L) d))).
Proof.
  intros Hf HL Hi. unfold spliceManagedKey. run. rewrite Hf.
  rewrite (managed_list_truthy _ _ _ HL). simpl.
  pose proof HL as HL'. unfold managed_list in HL'. rewrite HL'.
  replace (i <? 0) with false by lia.
  replace (Js.length_ L <=? i) with false by lia. simpl.
  unfold updateSecretState. by rewrite (mutate_array_run d key L _ HL).
Qed.

Lemma spliceManagedKey_nothing f d key (i : Z) :
  loads f d →
  (managed_list d key = None ∨
   ∃ L, managed_list d key = Some L ∧ ¬ (0 ≤ i < Js.length_ L)) →
  spliceManagedKey key i f = (inr (), f).
Proof.
  intros Hf H. unfold spliceManagedKey. run. rewrite Hf.
  destruct (Js.truthy (d !! "managed")); simpl; [|done].
  unfold managed_list in H. destruct H as [-> | (L & -> & Hi)]; [done|].
  destruct (i <? 0) eqn:E1; [done|].
  destruct (Js.length_ L <=? i) eqn:E2; [done|]. lia.
Qed.

Lemma probeManagedKey_unmanaged f d key :
  loads f d → managed_list d key = None →
  probeManagedKey key f = (inr (mkProbe false (-1)), f).
Proof.
  intros Hf HL. unfold probeManagedKey. run. rewrite Hf.
  destruct (Js.truthy (d !! "managed")); simpl; [|done].
  unfold managed_list in HL. by rewrite HL.
Qed.

Lemma probeManagedKey_managed f d key L :
  loads f d → managed_list d key = Some L →
  probeManagedKey key f =
    (inr (let i := Js.findIndex
                     (λ k, Js.strict_eq (Js.mem (value k)) (Js.get d key)) L in
          mkProbe (negb (i =? -1)) i), f).
Proof.
  intros Hf HL. unfold probeManagedKey. run. rewrite Hf.
  rewrite (managed_list_truthy _ _ _ HL). simpl.
  unfold managed_list in HL. rewrite HL.
  by rewrite (readSecret_run _ _ _ Hf).
Qed.

(** What [probeManagedKey] reports, in the words of the specification. *)
Lemma probeManagedKey_spec f d key :
  loads f d →
  ∃ p, probeManagedKey key f = (inr p, f) ∧
    (result p = true →
       ∃ L (j : nat), managed_list d key = Some L ∧ index p = Z.of_nat j ∧
                      first_match (Js.get d key) L j) ∧
    (result p = false →
       index p = -1 ∧ no_match (Js.get d key) (default [] (managed_list d key))).
Proof.
  intros Hf. destruct (managed_list d key) as [L|] eqn:HL.
  - rewrite (probeManagedKey_managed f d key L Hf HL).
    eexists. split; [done|]. simpl.
    destruct (first_match_or_none (Js.get d key) L) as [[j Hj]|Hno].
    + rewrite (findIndex_first _ _ _ Hj). split.
      * intros _. exists L, j. done.
      * intros H. apply negb_false_iff in H. lia.
    + rewrite (findIndex_none _ _ Hno). split; [done|]. done.
  - rewrite (probeManagedKey_unmanaged f d key Hf HL).
    eexists. split; [done|]. simpl. split; [done|].
    intros _. split; [done|]. intros k Hk. by apply elem_of_nil in Hk.
Qed.

Lemma well_managed_with_list d key L : well_managed (with_list key L d).
Proof. unfold well_managed, with_list. by rewrite lookup_insert_eq. Qed.

Lemma not_inherited_proto key : ¬ inherited key → key ≠ "__proto__".
Proof.
  intros Hn ->. apply Hn. unfold inherited.
  apply (bool_decide_unpack _). vm_compute. exact I.
Qed.

Lemma get_not_inherited d key :
  ¬ inherited key → Js.get d key = Js.mem (d !! key).
Proof.
  intros Hn. unfold Js.get. destruct (d !! key); [done|].
  by rewrite bool_decide_eq_false_2.
Qed.

Lemma json_mem v : Js.json (Js.mem v) = v.
Proof. by destruct v. Qed.

(** X13. Appends handled one after the other lose nothing: when the key
    has a list or does not name a member of [Object.prototype], the list of
    the key grows by one element per request, in the order of the
    requests. *)
Lemma appends_in_sequence f d key (es : list (option string * option jsval)) :
  loads f d → well_managed d →
  (managed_list d key = None → ¬ inherited key) →
  ∃ f' d', appends key es f = (inr (), f') ∧ loads f' d' ∧
    default [] (managed_list d' key) =
      (default [] (managed_list d key) ++
       ((λ e, mkManagedKey e.1 e.2) <$> es))%list.
Proof.
  revert f d. induction es as [|[c v] es IH]; intros f d Hf Hwm Hkey.
  - exists f, d. split; [done|]. split; [done|]. by rewrite app_nil_r.
  - set (d1 := appended key c v d).
    destruct (IH (Some (Json d1)) d1 (loads_Json d1)
                (well_managed_with_list _ _ _)) as (f' & d' & Hrun & Hf' & HL).
    { unfold d1, appended. by rewrite managed_list_with_list. }
    exists f', d'. split; [|split; [done|]].
    + simpl. unfold mbind, M_bind.
      by rewrite (appendManagedKey_run _ _ _ _ _ Hf Hwm Hkey).
    + rewrite HL. unfold d1, appended. rewrite managed_list_with_list.
      simpl. by rewrite <- app_assoc.
Qed.

(** ** [/manager/migrate] *)

Lemma migrate_conflict f d key c p :
  loads f d → probeManagedKey key f = (inr p, f) → result p = true →
  post_manager_migrate key c f = (inr (sendStatus 409), f).
Proof.
  intros Hf Hp Hr. unfold post_manager_migrate. run. by rewrite Hp, Hr.
Qed.

Lemma migrate_append f d key c p :
  loads f d → well_managed d →
  (managed_list d key = None → ¬ inherited key) →
  probeManagedKey key f = (inr p, f) → result p = false →
  post_manager_migrate key c f =
    (inr (sendStatus 204),
     Some (Json (appended key c (Js.json (Js.get d key)) d))).
Proof.
  intros Hf Hwm Hkey Hp Hr. unfold post_manager_migrate. run. rewrite Hp, Hr.
  rewrite (readSecret_run _ _ _ Hf).
  by rewrite (appendManagedKey_run _ _ _ _ _ Hf Hwm Hkey).
Qed.

(** A migration under a name of [Object.prototype] that has no list throws. *)
Lemma migrate_throws_inherited f d key c :
  loads f d → managed_list d key = None → inherited key →
  post_manager_migrate key c f = (inl TypeError, f).
Proof.
  intros Hf HL Hin. unfold post_manager_migrate. run.
  rewrite (probeManagedKey_unmanaged f d key Hf HL). cbn [result].
  rewrite (readSecret_run _ _ _ Hf).
  by rewrite (appendManagedKey_throws_inherited _ _ _ _ _ Hf HL Hin).
Qed.

Lemma strict_eq_refl v :
  plain v → Js.strict_eq (Js.mem v) (Js.mem v) = true.
Proof. intros [-> | [s ->]]; simpl; [done|apply String.eqb_refl]. Qed.

(** After a successful migration the active value is found in the list. *)
Lemma probe_after_migrate d key c :
  key ≠ "managed" → ¬ inherited key → plain (d !! key) →
  let d' := appended key c (d !! key) d in
  ∃ p, probeManagedKey key (Some (Json d')) = (inr p, Some (Json d')) ∧
       result p = true.
Proof.
  intros Hkey Hown HA d'.
  destruct (probeManagedKey_spec (Some (Json d')) d' key (loads_Json d'))
    as (p & Hp & _ & Hfalse).
  exists p. split; [done|].
  destruct (result p) eqn:Hr; [done|].
  destruct (Hfalse eq_refl) as [_ Hno].
  rewrite (get_not_inherited d' key Hown) in Hno.
  unfold d', appended in Hno.
  rewrite managed_list_with_list, lookup_with_list in Hno by done.
  simpl in Hno.
  specialize (Hno (mkManagedKey c (d !! key))). cbn [value] in Hno.
  rewrite strict_eq_refl in Hno by done.
  symmetry. apply Hno. apply elem_of_app. right. apply list_elem_of_singleton.
  done.
Qed.

(** C2, as stated, at the key named [managed] on a store without a file:
    the active value of that key is the record of managed lists itself, an
    object that is never [===] to the copy stored by the first call. Both
    calls answer 204 and the list of the key grows by two. *)
Lemma migrate_twice_managed_key :
  let twice :=
    post_manager_migrate "managed" (Some "first");;
    post_manager_migrate "managed" (Some "second") in
  fst (twice None) = inr (sendStatus 204) ∧
  fst (twice None) ≠ inr (sendStatus 409) ∧
  (∃ d2, snd (twice None) = Some (Json d2) ∧
         length <$> managed_list INITIAL_STATE "managed" = None ∧
         length <$> managed_list d2 "managed" = Some 2%nat).
Proof.
  intros twice.
  set (d1 := appended "managed" (Some "first") (Some (VRec ∅)) INITIAL_STATE).
  set (d2 := appended "managed" (Some "second") (d1 !! "managed") d1).
  assert (twice None = (inr (sendStatus 204), Some (Json d2))) as ->
    by (vm_compute; reflexivity).
  split; [done|]. split; [done|]. exists d2. split; [done|].
  split; vm_compute; reflexivity.
Qed.

(** The same claim fails in another way once [managed] is a non-empty
    string: the migration raises a [TypeError]. *)
Lemma migrate_on_string_managed :
  (writeSecret "managed" (Some (VStr "abc"));;
   post_manager_migrate "K" (Some "first")) None =
    (inl TypeError, Some (Json {[ "managed" := VStr "abc" ]})).
Proof. vm_compute. reflexivity. Qed.

(** And under a key that names a member of [Object.prototype], such as
    [constructor], on the empty store: the inherited member stands where the
    list would be made, and the migration raises a [TypeError]. *)
Lemma migrate_on_inherited_name :
  post_manager_migrate "constructor" (Some "first") None =
    (inl TypeError, None).
Proof. vm_compute. reflexivity. Qed.

(** C2, amended. For a key other than [managed] that names no member of
    [Object.prototype], on a loaded document whose [managed] property is not
    a non-empty string: the migration answers 409 and leaves the file as it
    is exactly when the probe reports the active value in the managed list;
    otherwise it answers 204, the list of the key has the element [{c, A}]
    added at its end and the active value [A] is unchanged. When [A] is a
    string or absent, a second migration right after the first answers 409,
    and after both the list is the old one when the first call was a
    conflict and the old one with one more element when it was not. *)
Theorem migrate_conflict_or_append f d key c c' :
  loads f d → well_managed d → key ≠ "managed" → ¬ inherited key →
  let L' := (default [] (managed_list d key) ++ [mkManagedKey c (d !! key)])%list in
  ∃ p, probeManagedKey key f = (inr p, f) ∧
    (result p = true →
       post_manager_migrate key c f = (inr (sendStatus 409), f)) ∧
    (result p = false →
       ∃ d', post_manager_migrate key c f =
               (inr (sendStatus 204), Some (Json d')) ∧
             managed_list d' key = Some L' ∧
             d' !! key = d !! key) ∧
    (plain (d !! key) →
       ∃ f2 d2,
         (post_manager_migrate key c;; post_manager_migrate key c') f =
           (inr (sendStatus 409), f2) ∧
         loads f2 d2 ∧
         managed_list d2 key =
           if result p then managed_list d key else Some L').
Proof.
  intros Hf Hwm Hkey Hown L'.
  destruct (probeManagedKey_spec f d key Hf) as (p & Hp & _).
  exists p. split; [done|].
  set (d' := appended key c (d !! key) d).
  assert (HL' : managed_list d' key = Some L')
    by apply managed_list_with_list.
  assert (HA : d' !! key = d !! key) by (by apply lookup_with_list).
  assert (Hmig : result p = false →
                 post_manager_migrate key c f =
                   (inr (sendStatus 204), Some (Json d'))).
  { intros Hr. rewrite (migrate_append f d key c p Hf Hwm); [|done..].
    by rewrite (get_not_inherited d key Hown), json_mem. }
  split; [|split].
  - intros Hr. by apply migrate_conflict with d p.
  - intros Hr. exists d'. split; [by apply Hmig|done].
  - intros HAstr. destruct (result p) eqn:Hr.
    + exists f, d. split; [|done].
      pose proof (migrate_conflict f d key c p Hf Hp Hr) as H1.
      pose proof (migrate_conflict f d key c' p Hf Hp Hr) as H2.
      unfold mbind, M_bind. by rewrite H1.
    + exists (Some (Json d')), d'. split; [|done].
      pose proof (Hmig eq_refl) as H1.
      destruct (probe_after_migrate d key c Hkey Hown HAstr)
        as (p' & Hp' & Hr').
      fold d' in Hp'.
      pose proof (migrate_conflict _ d' key c' p' (loads_Json d') Hp' Hr') as H2.
      unfold mbind, M_bind. by rewrite H1.
Qed.

Lemma not_inherited_K : ¬ inherited "K".
Proof.
  unfold inherited. apply (bool_decide_unpack _). vm_compute. exact I.
Defined.

(** A legacy value migrated twice: the second call is a conflict. *)
Lemma migrate_conflict_or_append_witness :
  let d : SecretState := <[ "K" := VStr "v1" ]> INITIAL_STATE in
  ∃ f2, (post_manager_migrate "K" (Some "first");;
         post_manager_migrate "K" (Some "again")) (Some (Json d)) =
          (inr (sendStatus 409), f2).
Proof.
  intros d.
  destruct (migrate_conflict_or_append (Some (Json d)) d "K"
              (Some "first") (Some "again") (loads_Json d) I
              ltac:(discriminate) not_inherited_K) as (p & _ & _ & _ & Htwice).
  destruct Htwice as (f2 & d2 & Hrun & _).
  - right. exists "v1". reflexivity.
  - exists f2. exact Hrun.
Defined.

(** ** Probing after an append *)

Lemma first_match_unique A L (i j : nat) :
  first_match A L i → first_match A L j → i = j.
Proof.
  intros Hi Hj. apply Nat2Z.inj.
  by rewrite <- (findIndex_first _ _ _ Hi), <- (findIndex_first _ _ _ Hj).
Qed.

Lemma first_match_snoc A L k :
  no_match A L → Js.strict_eq (Js.mem (value k)) A = true →
  first_match A (L ++ [k]) (length L).
Proof.
  intros Hno Hk. split.
  - exists k. split; [|done]. by apply list_lookup_middle.
  - intros i k' Hi Hk'. rewrite lookup_app_l in Hk' by done.
    apply Hno. by eapply list_elem_of_lookup_2.
Qed.

(** C6, as stated, on a list that already holds the value: the probe
    reports the position of the old element, 0, while the appended element
    is at the new last position, 1. *)
Lemma probe_after_append_duplicate :
  let d : SecretState :=
    {[ "managed" := VRec {[ "K" := [mkManagedKey (Some "old") (Some (VStr "v"))] ]} ]} in
  let ops :=
    appendManagedKey "K" (Some "new") (Some (VStr "v"));;
    writeSecret "K" (Some (VStr "v"));;
    probeManagedKey "K" in
  fst (ops (Some (Json d))) = inr (mkProbe true 0) ∧
  (∃ d', snd (ops (Some (Json d))) = Some (Json d') ∧
         managed_list d' "K" =
           Some [mkManagedKey (Some "old") (Some (VStr "v"));
                 mkManagedKey (Some "new") (Some (VStr "v"))]) ∧
  fst (ops (Some (Json d))) ≠ inr (mkProbe true 1).
Proof.
  intros d ops.
  set (d' := <["K" := VStr "v"]>
               (appended "K" (Some "new") (Some (VStr "v")) d)).
  assert (ops (Some (Json d)) = (inr (mkProbe true 0), Some (Json d'))) as ->
    by (vm_compute; reflexivity).
  split; [done|]. split; [|done]. exists d'. split; [done|].
  vm_compute. reflexivity.
Qed.

(** C6, amended. For a key other than [managed] that names no member of
    [Object.prototype], on a loaded document whose [managed] property is not
    a non-empty string: after [append(key, c, v)] and [write(key, v)] the
    probe reports the key as managed, at the position of the first element of
    the new list whose value is [v]; that position is the one of the
    appended element, the new last position, exactly when no element of the
    old list has the value [v]. *)
Theorem probe_after_append_and_write f d key c (x : string) :
  loads f d → well_managed d → key ≠ "managed" → ¬ inherited key →
  let L0 := default [] (managed_list d key) in
  let new := mkManagedKey c (Some (VStr x)) in
  ∃ (j : nat) f',
    (appendManagedKey key c (Some (VStr x));;
     writeSecret key (Some (VStr x));;
     probeManagedKey key) f = (inr (mkProbe true (Z.of_nat j)), f') ∧
    first_match (Stored (VStr x)) (L0 ++ [new]) j ∧
    (j = length L0 ↔ no_match (Stored (VStr x)) L0).
Proof.
  intros Hf Hwm Hkey Hown L0 new.
  pose proof (not_inherited_proto key Hown) as Hproto.
  set (d1 := appended key c (Some (VStr x)) d).
  set (d2 := assign key (Some (VStr x)) d1).
  assert (HL2 : managed_list d2 key = Some (L0 ++ [new])%list).
  { unfold managed_list, d2. rewrite assign_lookup_ne by done.
    apply managed_list_with_list. }
  assert (HA2 : Js.get d2 key = Stored (VStr x)) by (by apply get_assign).
  destruct (probeManagedKey_spec (Some (Json d2)) d2 key (loads_Json d2))
    as (p & Hp & Htrue & Hfalse).
  rewrite HL2, HA2 in Htrue, Hfalse. simpl in Hfalse.
  destruct p as [[|] i]; simpl in *.
  - destruct (Htrue eq_refl) as (L & j & [= <-] & -> & Hj).
    exists j, (Some (Json d2)). split; [|split; [done|]].
    + unfold mbind, M_bind.
      rewrite (appendManagedKey_run _ _ _ _ _ Hf Hwm); [|by intros _].
      rewrite (writeSecret_run _ d1 _ _ (loads_Json d1)). exact Hp.
    + split.
      * intros -> k Hk. apply list_elem_of_lookup in Hk as [i Hi].
        destruct Hj as [_ Hbefore]. apply (Hbefore i).
        -- by eapply lookup_lt_Some.
        -- rewrite lookup_app_l; [done|]. by eapply lookup_lt_Some.
      * intros Hno. eapply first_match_unique; [exact Hj|].
        apply first_match_snoc; [done|]. simpl. apply String.eqb_refl.
  - destruct (Hfalse eq_refl) as [_ Hno].
    assert (Hin : new ∈ (L0 ++ [new])%list).
    { apply elem_of_app. right. by apply list_elem_of_singleton. }
    specialize (Hno new Hin). simpl in Hno.
    rewrite String.eqb_refl in Hno. done.
Qed.

(** An append to a fresh store, then the write: the probe finds index 0. *)
Lemma probe_after_append_and_write_witness :
  ∃ f',
    (appendManagedKey "K" (Some "first") (Some (VStr "v"));;
     writeSecret "K" (Some (VStr "v"));;
     probeManagedKey "K") None = (inr (mkProbe true 0), f').
Proof.
  destruct (probe_after_append_and_write None INITIAL_STATE "K" (Some "first")
              "v" loads_fresh I ltac:(discriminate) not_inherited_K)
    as (j & f' & Hrun & _ & Hlast).
  exists f'. rewrite Hrun. do 3 f_equal.
  assert (j = 0%nat) as ->; [|done].
  apply Hlast. intros k Hk. by apply elem_of_nil in Hk.
Defined.

(** ** The precedence of the search in [rotateManagedSecret] *)


Lemma falls_back_dec (s : search) L :
  (∃ n, s = SNum n ∧ 0 ≤ n < Js.length_ L) ∨
  (∃ t (j : nat) k, s = SStr t ∧ Js.trim t ≠ "" ∧ first_comment_match t L j k) ∨
  falls_back s L.
Proof.
  destruct s as [n|t|]; simpl.
  - destruct (decide (0 ≤ n < Js.length_ L)); eauto.
  - destruct (decide (Js.trim t = "")) as [|Hne]; [auto|].
    destruct (List.find (comment_matches t) L) as [k|] eqn:E.
    + apply find_first in E as (j & Hj & Hk & Hlt).
      right; left. exists t, j, k. repeat split; done.
    + right; right; right. by apply find_none_iff.
  - auto.
Qed.



(** ** Splice, and the frame of the list operations *)

(** C8. On a loaded document, [splice(key, i)] with [i] in [0, len(L))
    removes the element at position [i] of the managed list of [key] and
    nothing else: the other elements keep their order, the other lists and
    the legacy values are as before. When the list is absent or [i] is
    outside [0, len(L)), it returns normally and the file is the one it
    found. *)
Theorem splice_removes_or_nothing f d key (i : Z) :
  loads f d →
  (∀ L, managed_list d key = Some L → 0 ≤ i < Js.length_ L →
     ∃ d' k,
       spliceManagedKey key i f = (inr (), Some (Json d')) ∧
       L !! Z.to_nat i = Some k ∧
       managed_list d' key =
         Some (take (Z.to_nat i) L ++ drop (S (Z.to_nat i)) L)%list ∧
       (∀ key', key' ≠ key → managed_list d' key' = managed_list d key') ∧
       flat d' = flat d) ∧
  (managed_list d key = None ∨
   (∃ L, managed_list d key = Some L ∧ ¬ (0 ≤ i < Js.length_ L)) →
     spliceManagedKey key i f = (inr (), f)).
Proof.
  intros Hf. split.
  - intros L HL Hi.
    assert (Z.to_nat i < length L)%nat as Hlt by (unfold Js.length_ in Hi; lia).
    destruct (lookup_lt_is_Some_2 L _ Hlt) as [k Hk].
    exists (with_list key (delete (Z.to_nat i) L) d), k.
    split; [by apply spliceManagedKey_run|]. split; [done|]. split; [|split].
    + rewrite managed_list_with_list. by rewrite delete_take_drop.
    + intros key' Hne. by apply managed_list_with_list_ne.
    + apply flat_with_list.
  - intros H. by apply spliceManagedKey_nothing with d.
Qed.

(** Removing the middle one of three keys; an index past the end. *)
Lemma splice_removes_or_nothing_witness :
  let a := mkManagedKey (Some "a") (Some (VStr "1")) in
  let b := mkManagedKey (Some "b") (Some (VStr "2")) in
  let c := mkManagedKey (Some "c") (Some (VStr "3")) in
  let d : SecretState := {[ "managed" := VRec {[ "K" := [a; b; c] ]} ]} in
  (∃ d', spliceManagedKey "K" 1 (Some (Json d)) = (inr (), Some (Json d')) ∧
         managed_list d' "K" = Some [a; c]) ∧
  spliceManagedKey "K" 3 (Some (Json d)) = (inr (), Some (Json d)).
Proof.
  intros a b c d.
  destruct (splice_removes_or_nothing (Some (Json d)) d "K" 1 (loads_Json d))
    as [Hin _].
  destruct (splice_removes_or_nothing (Some (Json d)) d "K" 3 (loads_Json d))
    as [_ Hout].
  split.
  - destruct (Hin [a; b; c] eq_refl) as (d' & k & Hrun & _ & HL & _).
    + unfold Js.length_. simpl. lia.
    + exists d'. split; [exact Hrun | exact HL].
  - apply Hout. right. exists [a; b; c]. split; [reflexivity|].
    unfold Js.length_. simpl. lia.
Defined.

(** C9. On a loaded document, neither [append] nor [splice] changes the
    legacy values: whatever the key, comment, value and index, the document
    left in the file has the same property as before under every name but
    [managed], so the active value of every such key is the same, also when
    [splice] removes the element that holds it. *)
Theorem append_splice_keep_flat f d key c v (i : Z) :
  loads f d →
  (∃ d', loads (snd (appendManagedKey key c v f)) d' ∧
         flat d' = flat d ∧
         ∀ key', key' ≠ "managed" → d' !! key' = d !! key') ∧
  (∃ d', loads (snd (spliceManagedKey key i f)) d' ∧
         flat d' = flat d ∧
         ∀ key', key' ≠ "managed" → d' !! key' = d !! key').
Proof.
  intros Hf. split.
  - rewrite (appendManagedKey_cases f d key c v Hf).
    case_bool_decide; simpl.
    + eexists. split; [apply loads_Json|]. split.
      * apply flat_with_list.
      * intros key' Hne. by apply lookup_with_list.
    + exists d. done.
  - destruct (managed_list d key) as [L|] eqn:HL.
    + destruct (decide (0 ≤ i < Js.length_ L)) as [Hi|Hi].
      * rewrite (spliceManagedKey_run _ _ _ _ _ Hf HL Hi). simpl.
        eexists. split; [apply loads_Json|]. split.
        -- apply flat_with_list.
        -- intros key' Hne. by apply lookup_with_list.
      * rewrite (spliceManagedKey_nothing f d key i Hf); [by exists d|].
        right. by exists L.
    + rewrite (spliceManagedKey_nothing f d key i Hf); [by exists d|].
      by left.
Qed.

(** Splicing out the active key leaves the active value in place. *)
Lemma append_splice_keep_flat_witness :
  let a := mkManagedKey (Some "a") (Some (VStr "1")) in
  let d : SecretState :=
    {[ "K" := VStr "1"; "managed" := VRec {[ "K" := [a] ]} ]} in
  ∃ d', loads (snd (spliceManagedKey "K" 0 (Some (Json d)))) d' ∧
        d' !! "K" = Some (VStr "1").
Proof.
  intros a d.
  destruct (append_splice_keep_flat (Some (Json d)) d "K" None None 0
              (loads_Json d)) as [_ (d' & Hload & _ & Hkeep)].
  exists d'. split; [exact Hload|].
  rewrite (Hkeep "K"); [reflexivity|discriminate].
Defined.

(** ** The name [managed] among the legacy keys *)

Lemma managed_list_not_rec d :
  (∀ m, d !! "managed" ≠ Some (VRec m)) → ∀ key, managed_list d key = None.
Proof.
  intros H key. unfold managed_list, managed_array.
  destruct (d !! "managed") as [[s|m]|]; try done. by destruct (H m).
Qed.

(** C10. On a loaded document, [write("managed", x)] puts the string [x]
    where the managed lists were and [delete("managed")] removes them: after
    either, no key has a managed list, and the legacy values are as before.
    For every other key, [write] and [delete] leave the [managed] property,
    hence every managed list, as it was. *)
Theorem managed_key_shares_namespace f d :
  loads f d →
  (∀ x : string, ∃ d',
     writeSecret "managed" (Some (VStr x)) f = (inr (), Some (Json d')) ∧
     d' !! "managed" = Some (VStr x) ∧
     (∀ key, managed_list d' key = None) ∧
     flat d' = flat d) ∧
  (∃ d',
     deleteSecret "managed" f = (inr (), Some (Json d')) ∧
     d' !! "managed" = None ∧
     (∀ key, managed_list d' key = None) ∧
     flat d' = flat d) ∧
  (∀ key v, key ≠ "managed" → ∃ d',
     writeSecret key v f = (inr (), Some (Json d')) ∧
     d' !! "managed" = d !! "managed" ∧
     ∀ key', managed_list d' key' = managed_list d key') ∧
  (∀ key, key ≠ "managed" → ∃ d',
     deleteSecret key f = (inr (), Some (Json d')) ∧
     d' !! "managed" = d !! "managed" ∧
     ∀ key', managed_list d' key' = managed_list d key').
Proof.
  intros Hf. repeat split.
  - intros x. exists (<["managed" := VStr x]> d).
    split; [by apply (writeSecret_run f d "managed" (Some (VStr x)))|].
    assert (E : <["managed" := VStr x]> d !! "managed" = Some (VStr x))
      by apply lookup_insert_eq.
    split; [done|]. split.
    + apply managed_list_not_rec. intros m. rewrite E. discriminate.
    + unfold flat. apply delete_insert_eq.
  - exists (delete "managed" d).
    split; [by apply deleteSecret_run|].
    assert (E : delete "managed" d !! "managed" = None)
      by apply lookup_delete_eq.
    split; [done|]. split.
    + apply managed_list_not_rec. intros m. rewrite E. discriminate.
    + unfold flat. apply delete_delete_eq.
  - intros key v Hne. exists (assign key v d).
    split; [by apply writeSecret_run|].
    assert (E : assign key v d !! "managed" = d !! "managed")
      by (by apply assign_lookup_ne).
    split; [done|]. intros key'. unfold managed_list. by rewrite E.
  - intros key Hne. exists (delete key d).
    split; [by apply deleteSecret_run|].
    assert (E : delete key d !! "managed" = d !! "managed")
      by (by apply lookup_delete_ne).
    split; [done|]. intros key'. unfold managed_list. by rewrite E.
Qed.

(** Writing under the name [managed] loses the list of another key. *)
Lemma managed_key_shares_namespace_witness :
  let a := mkManagedKey (Some "a") (Some (VStr "1")) in
  let d : SecretState := {[ "managed" := VRec {[ "K" := [a] ]} ]} in
  managed_list d "K" = Some [a] ∧
  ∃ d', writeSecret "managed" (Some (VStr "x")) (Some (Json d)) =
          (inr (), Some (Json d')) ∧
        managed_list d' "K" = None.
Proof.
  intros a d. split; [reflexivity|].
  destruct (managed_key_shares_namespace (Some (Json d)) d (loads_Json d))
    as [Hwrite _].
  destruct (Hwrite "x") as (d' & Hrun & _ & Hnone & _).
  exists d'. split; [exact Hrun | apply Hnone].
Defined.

(** ** A file that does not parse *)




(** ** The manager view *)

Lemma view_inner A key arr (out : list ManagedKeyState)
    (state : SecretManagerState) :
  foldl (λ state secret,
           alter (λ out, out ++ [mkState (comment secret)
                                   (Js.strict_eq A (Js.mem (value secret)))])%list
                 key state)
        (<[key := out]> state) arr =
  <[key := (out ++ (redact A <$> arr))%list]> state.
Proof.
  revert out. induction arr as [|k arr IH]; intros out; simpl.
  - by rewrite app_nil_r.
  - rewrite alter_insert_eq, IH. by rewrite <- app_assoc.
Qed.

Lemma view_outer d (ps : list (string * list ManagedKey))
    (state : SecretManagerState) key :
  NoDup ps.*1 →
  foldl (λ state '(key, arr),
           if String.eqb key "__proto__" then state else
           let state := <[key := []]> state in
           foldl (λ state secret,
                    let sel := Js.strict_eq (Js.get d key)
                                            (Js.mem (value secret)) in
                    alter (λ out, out ++ [mkState (comment secret) sel])%list
                          key state)
                 state arr)
        state ps !! key =
  if String.eqb key "__proto__" then state !! key else
  match (list_to_map ps : gmap string (list ManagedKey)) !! key with
  | Some arr => Some (redact (Js.get d key) <$> arr)
  | None => state !! key
  end.
Proof.
  revert state. induction ps as [|[key' arr] ps IH]; intros state Hdup.
  - simpl. rewrite lookup_empty. by destruct (String.eqb key "__proto__").
  - apply NoDup_cons in Hdup as [Hnotin Hdup]. simpl in Hnotin.
    rewrite list_to_map_cons.
    cbn [foldl]. rewrite IH by done.
    destruct (String.eqb key "__proto__") eqn:Ek; [|apply String.eqb_neq in Ek].
    + destruct (String.eqb key' "__proto__") eqn:Ek'; [done|].
      apply String.eqb_eq in Ek. apply String.eqb_neq in Ek'. subst key.
      cbv zeta.
      rewrite (view_inner (Js.get d key') key' arr [] state).
      by rewrite lookup_insert_ne.
    + destruct (String.eqb key' "__proto__") eqn:Ek'.
      * apply String.eqb_eq in Ek'. subst key'.
        by rewrite lookup_insert_ne.
      * cbv zeta.
        rewrite (view_inner (Js.get d key') key' arr [] state).
        rewrite app_nil_l.
        destruct (decide (key' = key)) as [->|Hne].
        -- rewrite lookup_insert_eq.
           apply not_elem_of_list_to_map_1 in Hnotin. rewrite Hnotin.
           by rewrite lookup_insert_eq.
        -- by rewrite !lookup_insert_ne by done.
Qed.

Lemma enumerate_NoDup (managed : jsval) : NoDup (enumerate managed).*1.
Proof.
  destruct managed as [s|m]; simpl.
  - rewrite fmap_imap.
    rewrite (imap_ext _ (λ i _, pretty i)) by done.
    rewrite imap_seq_0. apply NoDup_fmap_2; [apply _|apply NoDup_seq].
  - apply NoDup_fst_map_to_list.
Qed.

Lemma readManagedSecretsState_run f d :
  loads f d →
  ∃ view, readManagedSecretsState f = (inr view, f) ∧
          ∀ key, view !! key =
                 if String.eqb key "__proto__" then None
                 else fmap (M:=list) (redact (Js.get d key)) <$> shown d key.
Proof.
  intros Hf. unfold readManagedSecretsState, shown, mbind, M_bind.
  rewrite Hf. cbv beta iota zeta.
  destruct (Js.truthy (d !! "managed")) eqn:Et; cbn [negb].
  - destruct (d !! "managed") as [managed|] eqn:Em; [|done].
    eexists. split; [done|]. intros key.
    rewrite (view_outer d (enumerate managed) ∅ key (enumerate_NoDup _)).
    rewrite lookup_empty.
    destruct (String.eqb key "__proto__"); [done|].
    by destruct (list_to_map _ !! key).
  - exists ∅. split; [done|]. intros key. rewrite lookup_empty.
    by destruct (String.eqb key "__proto__").
Qed.

Lemma shown_managed_list d key :
  well_managed d → shown d key = managed_list d key.
Proof.
  unfold well_managed, shown, managed_list, managed_array.
  destruct (d !! "managed") as [[s|m]|]; [intros ->; done| |done].
  intros _. simpl. by rewrite list_to_map_to_list.
Qed.

Lemma redact_ext A1 A2 (l1 l2 : list ManagedKey) :
  comment <$> l1 = comment <$> l2 →
  (λ k, Js.strict_eq A1 (Js.mem (value k))) <$> l1 =
  (λ k, Js.strict_eq A2 (Js.mem (value k))) <$> l2 →
  redact A1 <$> l1 = redact A2 <$> l2.
Proof.
  revert l2. induction l1 as [|k1 l1 IH]; intros [|k2 l2] Hc Hs;
    simpl in *; try done.
  injection Hc as Hc1 Hc. injection Hs as Hs1 Hs.
  f_equal; [|by apply IH]. unfold redact. by rewrite Hc1, Hs1.
Qed.

Lemma shown_managed_list_Some d key L :
  managed_list d key = Some L → shown d key = Some L.
Proof.
  intros HL. unfold shown. rewrite (managed_list_truthy _ _ _ HL).
  apply managed_list_rec in HL as (m & -> & HL). simpl.
  by rewrite list_to_map_to_list.
Qed.

(** C7, as stated, on a document whose [managed] record has a property
    named [__proto__], as [JSON.parse] makes it from a file: the key has a
    managed list, and the view has nothing under it. On a document whose
    list is under the name [constructor], with an element that has no value
    and no legacy value saved: the element is not shown as selected, as
    [secrets[key]] reads the inherited member. *)
Lemma view_omits_proto_key :
  let a := mkManagedKey (Some "a") (Some (VStr "s")) in
  let b := mkManagedKey (Some "b") None in
  let d1 : SecretState := {[ "managed" := VRec {[ "__proto__" := [a] ]} ]} in
  let d2 : SecretState := {[ "managed" := VRec {[ "constructor" := [b] ]} ]} in
  managed_list d1 "__proto__" = Some [a] ∧
  readManagedSecretsState (Some (Json d1)) = (inr ∅, Some (Json d1)) ∧
  managed_list d2 "constructor" = Some [b] ∧
  value b = d2 !! "constructor" ∧
  readManagedSecretsState (Some (Json d2)) =
    (inr {[ "constructor" := [mkState (Some "b") false] ]}, Some (Json d2)).
Proof. repeat split; vm_compute; reflexivity. Qed.

(** C7, amended. On a loaded document the manager view has, under each key
    other than [__proto__] that has a managed list, the list of the records
    [{comment, selected}] of the elements of that list, in the order of the
    list, where [selected] tells whether the value of the element is [===]
    to what [secrets[key]] reads: the legacy value of the key or, when there
    is none and the key names a member of [Object.prototype], that member,
    which no value equals. The view has nothing under [__proto__]; when
    [managed] is absent, empty or a record, it has nothing under a key
    without a managed list. A record of the view carries no value: a second
    document, in which what the view walks through under the keys other than
    [__proto__] has the same comments and the same pattern of equalities,
    has the same view. *)
Theorem manager_view_redacted f d :
  loads f d →
  ∃ view,
    readManagedSecretsState f = (inr view, f) ∧
    (∀ key L, key ≠ "__proto__" → managed_list d key = Some L →
       view !! key = Some (redact (active d key) <$> L)) ∧
    (∀ key L k, managed_list d key = Some L → k ∈ L → ¬ inherited key →
       Js.strict_eq (active d key) (Js.mem (value k)) = true →
       value k = d !! key) ∧
    (∀ key L k, managed_list d key = Some L → k ∈ L → inherited key →
       d !! key = None → Js.strict_eq (active d key) (Js.mem (value k)) = false) ∧
    view !! "__proto__" = None ∧
    (well_managed d →
       ∀ key, managed_list d key = None → view !! key = None) ∧
    (∀ key, key ≠ "__proto__" →
       view !! key = fmap (M:=list) (redact (active d key)) <$> shown d key) ∧
    (∀ f2 d2, loads f2 d2 →
       (∀ key, key ≠ "__proto__" →
          fmap (M:=list) comment <$> shown d key =
          fmap (M:=list) comment <$> shown d2 key) →
       (∀ key, key ≠ "__proto__" →
          fmap (M:=list) (λ k, Js.strict_eq (active d key) (Js.mem (value k)))
            <$> shown d key =
          fmap (M:=list) (λ k, Js.strict_eq (active d2 key) (Js.mem (value k)))
            <$> shown d2 key) →
       readManagedSecretsState f2 = (inr view, f2)).
Proof.
  intros Hf.
  destruct (readManagedSecretsState_run f d Hf) as (view & Hrun & Hview).
  assert (Hne : ∀ key, key ≠ "__proto__" →
                view !! key =
                fmap (M:=list) (redact (active d key)) <$> shown d key).
  { intros key Hk. rewrite Hview.
    apply String.eqb_neq in Hk. by rewrite Hk. }
  exists view. split; [done|]. repeat split.
  - intros key L Hk HL. by rewrite Hne, (shown_managed_list_Some _ _ _ HL).
  - intros key L k _ _ Hown. unfold active.
    rewrite (get_not_inherited d key Hown).
    destruct (value k) as [[x|m]|], (d !! key) as [[y|m']|]; simpl; try done.
    intros E. apply String.eqb_eq in E. by subst.
  - intros key L k _ _ Hin Hnone. unfold active, Js.get. rewrite Hnone.
    rewrite bool_decide_eq_true_2 by done. by destruct (value k) as [[x|m]|].
  - by rewrite Hview.
  - intros Hwm key HL. rewrite Hview.
    destruct (String.eqb key "__proto__"); [done|].
    by rewrite shown_managed_list, HL.
  - done.
  - intros f2 d2 Hf2 Hcomments Hselected.
    destruct (readManagedSecretsState_run f2 d2 Hf2) as (view2 & Hrun2 & Hview2).
    rewrite Hrun2. do 2 f_equal. apply map_eq. intros key.
    rewrite Hview, Hview2.
    destruct (String.eqb key "__proto__") eqn:Ek; [done|].
    apply String.eqb_neq in Ek.
    specialize (Hcomments key Ek). specialize (Hselected key Ek).
    unfold active in Hselected.
    destruct (shown d key) as [l1|], (shown d2 key) as [l2|];
      simpl in *; try done.
    f_equal. injection Hcomments as Hc. injection Hselected as Hs.
    symmetry. by apply redact_ext.
Qed.

(** Two documents with other secrets and the same view. *)
Lemma manager_view_redacted_witness :
  let d1 : SecretState :=
    {[ "K" := VStr "s2";
       "managed" := VRec {[ "K" := [mkManagedKey (Some "a") (Some (VStr "s1"));
                                    mkManagedKey (Some "b") (Some (VStr "s2"))] ]} ]} in
  let d2 : SecretState :=
    {[ "K" := VStr "t2";
       "managed" := VRec {[ "K" := [mkManagedKey (Some "a") (Some (VStr "t1"));
                                    mkManagedKey (Some "b") (Some (VStr "t2"))] ]} ]} in
  ∃ view,
    readManagedSecretsState (Some (Json d1)) = (inr view, Some (Json d1)) ∧
    readManagedSecretsState (Some (Json d2)) = (inr view, Some (Json d2)) ∧
    view !! "K" = Some [mkState (Some "a") false; mkState (Some "b") true].
Proof.
  intros d1 d2.
  destruct (manager_view_redacted (Some (Json d1)) d1 (loads_Json d1))
    as (view & Hrun & Hview & _ & _ & _ & _ & _ & Hsame).
  exists view. split; [exact Hrun|]. split.
  - apply (Hsame (Some (Json d2)) d2 (loads_Json d2)); intros key Hk;
      rewrite !shown_managed_list by exact I;
      unfold managed_list, managed_array;
      change (d1 !! "managed") with (Some (VRec {[ "K" :=
        [mkManagedKey (Some "a") (Some (VStr "s1"));
         mkManagedKey (Some "b") (Some (VStr "s2"))] ]}));
      change (d2 !! "managed") with (Some (VRec {[ "K" :=
        [mkManagedKey (Some "a") (Some (VStr "t1"));
         mkManagedKey (Some "b") (Some (VStr "t2"))] ]}));
      (destruct (decide (key = "K")) as [->|Hne];
       [reflexivity | by rewrite !lookup_singleton_ne]).
  - rewrite (Hview "K" _ ltac:(discriminate) eq_refl). reflexivity.
Defined.

(** * Further properties of the store *)

(** ** The ledger: write, delete, read *)

Lemma assign_None d key : assign key None d = delete key d.
Proof.
  unfold assign. case_bool_decide as H; [|done].
  destruct H as [-> H]. symmetry. by apply delete_id.
Qed.

Lemma get_delete d key :
  Js.get (delete key d) key =
  if bool_decide (inherited key) then Inherited key else Undefined.
Proof. unfold Js.get. by rewrite lookup_delete_eq. Qed.

Lemma get_ne d d' key : d' !! key = d !! key → Js.get d' key = Js.get d key.
Proof. intros E. unfold Js.get. by rewrite E. Qed.

Lemma inherited_proto : inherited "__proto__".
Proof.
  unfold inherited. apply (bool_decide_unpack _). vm_compute. exact I.
Qed.

(** X1. What is written under a key other than [__proto__] is what is read
    back from it. A missing value written under a key leaves no property:
    the key reads back as missing when it names no member of
    [Object.prototype], and as that member when it does. No other key reads
    differently. A write under [__proto__] on a document that has no such
    property stores nothing: the document is as before and the read gives
    the prototype. *)
Theorem write_then_read f d key v :
  loads f d →
  (key ≠ "__proto__" → ∀ x,
     (writeSecret key (Some x);; readSecret key) f =
       (inr (Stored x), Some (Json (<[key := x]> d)))) ∧
  (¬ inherited key →
     (writeSecret key None;; readSecret key) f =
       (inr Undefined, Some (Json (delete key d)))) ∧
  (inherited key →
     (writeSecret key None;; readSecret key) f =
       (inr (Inherited key), Some (Json (delete key d)))) ∧
  (∀ key', key' ≠ key →
     fst ((writeSecret key v;; readSecret key') f) = fst (readSecret key' f)) ∧
  (d !! "__proto__" = None →
     (writeSecret "__proto__" v;; readSecret "__proto__") f =
       (inr (Inherited "__proto__"), Some (Json d))).
Proof.
  intros Hf. unfold mbind, M_bind.
  rewrite !(writeSecret_run _ _ _ _ Hf).
  rewrite !(readSecret_run _ _ _ (loads_Json _)).
  split; [|split; [|split; [|split]]].
  - intros Hproto x. rewrite (writeSecret_run _ _ _ _ Hf).
    rewrite (readSecret_run _ _ _ (loads_Json _)).
    rewrite get_assign by done. by rewrite assign_eq.
  - intros Hown. rewrite assign_None, get_delete.
    by rewrite bool_decide_eq_false_2.
  - intros Hin. rewrite assign_None, get_delete.
    by rewrite bool_decide_eq_true_2.
  - intros key' Hne.
    rewrite (readSecret_run _ _ key' (loads_Json _)).
    rewrite (readSecret_run _ _ key' Hf). simpl. f_equal.
    apply get_ne. by apply assign_lookup_ne.
  - intros Hnone. rewrite assign_proto by done. unfold Js.get. rewrite Hnone.
    by rewrite bool_decide_eq_true_2 by apply inherited_proto.
Qed.

Lemma write_then_read_witness :
  (writeSecret "api_key_openai" (Some (VStr "sk-1"));;
   readSecret "api_key_openai") None =
    (inr (Stored (VStr "sk-1")),
     Some (Json (<["api_key_openai" := VStr "sk-1"]> INITIAL_STATE))).
Proof.
  apply (proj1 (write_then_read None INITIAL_STATE "api_key_openai"
                  None loads_fresh)).
  discriminate.
Defined.

(** X2. After a delete the document has no property under the key: the key
    reads as missing when it names no member of [Object.prototype], and as
    that member when it does. The other keys read as before; a second delete
    changes nothing more; and the delete writes the file even when there was
    none and nothing to remove. *)
Theorem delete_then_read f d key :
  loads f d →
  (∃ A, (deleteSecret key;; readSecret key) f =
          (inr A, Some (Json (delete key d))) ∧
        delete key d !! key = None ∧
        (¬ inherited key → A = Undefined) ∧
        (inherited key → A = Inherited key)) ∧
  (∀ key', key' ≠ key →
     fst ((deleteSecret key;; readSecret key') f) = fst (readSecret key' f)) ∧
  (deleteSecret key;; deleteSecret key) f = deleteSecret key f ∧
  snd (deleteSecret key f) ≠ None.
Proof.
  intros Hf. unfold mbind, M_bind.
  rewrite (deleteSecret_run _ _ _ Hf).
  rewrite (readSecret_run _ _ key (loads_Json _)), get_delete.
  split; [|split; [|split; [|done]]].
  - eexists. split; [done|]. split; [apply lookup_delete_eq|]. split.
    + intros Hown. by rewrite bool_decide_eq_false_2.
    + intros Hin. by rewrite bool_decide_eq_true_2.
  - intros key' Hne.
    rewrite (readSecret_run _ _ key' (loads_Json _)).
    rewrite (readSecret_run _ _ key' Hf). simpl. f_equal.
    apply get_ne. by apply lookup_delete_ne.
  - rewrite (deleteSecret_run _ _ key (loads_Json _)).
    by rewrite delete_delete_eq.
Qed.

Lemma delete_then_read_witness :
  snd ((deleteSecret "api_key_openai";; readSecret "api_key_openai") None) =
    Some (Json INITIAL_STATE).
Proof.
  destruct (delete_then_read None INITIAL_STATE "api_key_openai" loads_fresh)
    as ((A & Hrun & _) & _).
  rewrite Hrun. reflexivity.
Defined.

Lemma assign_lookup_full d key v (k : string) :
  assign key v d !! k =
  if bool_decide (k = key) then
    (if bool_decide (key = "__proto__" ∧ d !! key = None) then None else v)
  else d !! k.
Proof.
  case_bool_decide as Hk.
  - subst k. unfold assign. case_bool_decide as H.
    + by destruct H.
    + destruct v; [apply lookup_insert_eq|apply lookup_delete_eq].
  - by apply assign_lookup_ne.
Qed.

(** X3. Of two writes under one key other than [__proto__] the last one
    wins, a write after a delete is the write, and writes under two keys can
    be done in either order: the documents left in the file have the same
    properties with the same values. (The order of the properties in the
    file is not part of this statement.) *)
Theorem writes_compose f d key key' v v' :
  loads f d →
  ∃ d1 d2 d3 d4 d5,
    (writeSecret key v;; writeSecret key v') f = (inr (), Some (Json d1)) ∧
    (deleteSecret key;; writeSecret key v') f = (inr (), Some (Json d2)) ∧
    writeSecret key v' f = (inr (), Some (Json d3)) ∧
    (writeSecret key v;; writeSecret key' v') f = (inr (), Some (Json d4)) ∧
    (writeSecret key' v';; writeSecret key v) f = (inr (), Some (Json d5)) ∧
    (key ≠ "__proto__" →
       ∀ k : string, d1 !! k = d3 !! k ∧ d2 !! k = d3 !! k ∧
                     (k = key → d3 !! k = v')) ∧
    (key ≠ key' → ∀ k : string, d4 !! k = d5 !! k).
Proof.
  intros Hf. unfold mbind, M_bind.
  rewrite (writeSecret_run _ _ key v Hf).
  rewrite (writeSecret_run _ _ key' v' Hf).
  rewrite (writeSecret_run _ _ key v' Hf).
  rewrite (deleteSecret_run _ _ key Hf).
  rewrite !(writeSecret_run _ _ _ _ (loads_Json _)).
  eexists _, _, _, _, _. repeat (split; [reflexivity|]). split.
  - intros Hproto k. rewrite assign_assign by done.
    rewrite <- assign_None, assign_assign by done.
    split; [done|]. split; [done|]. intros ->. by apply assign_lookup.
  - intros Hne k. rewrite !assign_lookup_full.
    rewrite (bool_decide_eq_false_2 (key' = key)) by done.
    rewrite (bool_decide_eq_false_2 (key = key')) by done.
    repeat case_bool_decide; subst; done.
Qed.

Lemma writes_compose_witness :
  ∃ d4 d5,
    (writeSecret "deepl" (Some (VStr "a"));;
     writeSecret "libre" (Some (VStr "b"))) None = (inr (), Some (Json d4)) ∧
    (writeSecret "libre" (Some (VStr "b"));;
     writeSecret "deepl" (Some (VStr "a"))) None = (inr (), Some (Json d5)) ∧
    d4 !! "deepl" = d5 !! "deepl".
Proof.
  destruct (writes_compose None INITIAL_STATE "deepl" "libre"
              (Some (VStr "a")) (Some (VStr "b")) loads_fresh)
    as (d1 & d2 & d3 & d4 & d5 & _ & _ & _ & H4 & H5 & _ & Hcomm).
  exists d4, d5. split; [exact H4|]. split; [exact H5|].
  apply Hcomm. discriminate.
Defined.

(** ** The flags of [readSecretState] and the routes that read *)

Lemma flags_fold d (keys : list string) (state : gmap string bool) key :
  foldl (λ state key,
           if String.eqb key "managed" then state
           else <[key := Js.truthy_mem (Js.get d key)]> state)
        state keys !! key =
  if bool_decide (key ∈ keys ∧ key ≠ "managed")
  then Some (Js.truthy_mem (Js.get d key)) else state !! key.
Proof.
  revert state. induction keys as [|key0 keys IH]; intros state; cbn [foldl].
  - rewrite bool_decide_eq_false_2; [done|]. intros [H _].
    by apply elem_of_nil in H.
  - rewrite IH. destruct (String.eqb_spec key0 "managed") as [->|Hne0].
    + rewrite (bool_decide_ext (key ∈ "managed" :: keys ∧ key ≠ "managed")
                 (key ∈ keys ∧ key ≠ "managed")); [done|].
      rewrite elem_of_cons. intuition congruence.
    + destruct (decide (key = key0)) as [->|Hne].
      * rewrite lookup_insert_eq.
        rewrite (bool_decide_eq_true_2 (key0 ∈ key0 :: keys ∧ _));
          [|split; [left|done]].
        by case_bool_decide.
      * rewrite lookup_insert_ne by done.
        rewrite (bool_decide_ext (key ∈ key0 :: keys ∧ key ≠ "managed")
                   (key ∈ keys ∧ key ≠ "managed")); [done|].
        rewrite elem_of_cons. intuition congruence.
Qed.

(** No key of the catalog names a member of [Object.prototype]. *)
Lemma catalog_not_inherited key : key ∈ SECRET_KEYS → ¬ inherited key.
Proof.
  assert (H : Forall (λ name : string, name ∉ Object_prototype) SECRET_KEYS).
  { apply (bool_decide_unpack _). vm_compute. exact I. }
  rewrite Forall_forall in H. intros Hin. by apply H.
Qed.

Lemma truthy_mem_mem v : Js.truthy_mem (Js.mem v) = Js.truthy v.
Proof. by destruct v. Qed.

(** X4. The flags of a document: every key of the catalog, and no other name,
    has a flag, which tells whether the key holds something other than the
    empty string. The name [managed] has no flag, and a store without a file
    has no flag at all, not even a false one. *)
Theorem flags_of_catalog d key :
  ∃ flags,
    readSecretState (Some (Json d)) = (inr flags, Some (Json d)) ∧
    (key ∈ SECRET_KEYS → flags !! key = Some (Js.truthy (d !! key))) ∧
    (key ∉ SECRET_KEYS → flags !! key = None) ∧
    flags !! "managed" = None ∧
    readSecretState None = (inr ∅, None).
Proof.
  eexists. split; [reflexivity|].
  assert (Hm : "managed" ∉ SECRET_KEYS).
  { apply (bool_decide_unpack _). vm_compute. exact I. }
  split; [|split; [|split; [|done]]].
  - intros Hin. rewrite flags_fold.
    rewrite (get_not_inherited d key (catalog_not_inherited key Hin)).
    rewrite truthy_mem_mem.
    rewrite bool_decide_eq_true_2; [done|]. split; [done|].
    intros ->. done.
  - intros Hout. rewrite flags_fold.
    rewrite bool_decide_eq_false_2; [done|]. intros [H _]. done.
  - rewrite flags_fold.
    rewrite bool_decide_eq_false_2; [done|]. intros [_ H]. done.
Qed.

Lemma flags_of_catalog_witness :
  let d : SecretState := {[ "deepl" := VStr "x"; "libre" := VStr "" ]} in
  ∃ flags, readSecretState (Some (Json d)) = (inr flags, Some (Json d)) ∧
           flags !! "deepl" = Some true.
Proof.
  intros d.
  destruct (flags_of_catalog d "deepl") as (flags & Hrun & Hin & _).
  exists flags. split; [exact Hrun|].
  rewrite Hin; [reflexivity|].
  apply (bool_decide_unpack _). vm_compute. exact I.
Defined.

(** X5. No value leaves through [/find] unless exposure is allowed or the key
    is one of the four exportable ones, and what is sent is what
    [secrets[key]] reads, never a missing or empty value: the value stored
    under the key, which is the case for every key that names no member of
    [Object.prototype], the exportable ones among them, or else the
    inherited member. No document leaves through [/view] unless exposure is
    allowed, and the document sent is the one in the file. A refusal comes
    before the file is read: it is the answer for a file that does not parse
    too. *)
Theorem exposure_gate (allow : bool) key f :
  (∀ A f', post_find allow key f = (inr (sendValue A), f') →
     (allow = true ∨ key ∈ EXPORTABLE_KEYS) ∧ f' = f ∧
     ∃ d, loads f d ∧ A = active d key ∧ Js.truthy_mem A = true ∧
          (¬ inherited key →
             ∃ x, A = Stored x ∧ d !! key = Some x ∧ x ≠ VStr "") ∧
          (∀ name, A = Inherited name →
             name = key ∧ inherited key ∧ d !! key = None)) ∧
  (key ∈ EXPORTABLE_KEYS → ¬ inherited key) ∧
  (∀ secrets f', post_view allow f = (inr (sendSecrets secrets), f') →
     allow = true ∧ f' = f ∧ f = Some (Json secrets)) ∧
  (allow = false → key ∉ EXPORTABLE_KEYS →
     post_find allow key f = (inr (sendStatus 403), f)) ∧
  (allow = false → post_view allow f = (inr (sendStatus 403), f)).
Proof.
  split; [|split; [|split; [|split]]].
  - intros A f'. unfold post_find.
    destruct (negb allow && negb (bool_decide (key ∈ EXPORTABLE_KEYS))) eqn:E.
    { intros H. inversion H. }
    intros H. split.
    { destruct allow; [by left|]. right. simpl in E.
      apply negb_false_iff in E. by apply bool_decide_eq_true_1 in E. }
    assert (Hd : ∀ d, loads f d →
              (if negb (Js.truthy_mem (Js.get d key))
               then (inr (sendStatus 404) : error + response, f)
               else (inr (sendValue (Js.get d key)), f)) =
              (inr (sendValue A), f') →
              f' = f ∧
              ∃ d, loads f d ∧ A = active d key ∧ Js.truthy_mem A = true ∧
                (¬ inherited key →
                   ∃ x, A = Stored x ∧ d !! key = Some x ∧ x ≠ VStr "") ∧
                (∀ name, A = Inherited name →
                   name = key ∧ inherited key ∧ d !! key = None)).
    { intros d Hf Hrun.
      destruct (Js.truthy_mem (Js.get d key)) eqn:Et; simpl in Hrun;
        [|inversion Hrun].
      injection Hrun as <- <-. split; [done|]. exists d.
      split; [done|]. split; [done|]. split; [done|]. split.
      - intros Hown. rewrite (get_not_inherited d key Hown) in Et |- *.
        destruct (d !! key) as [x|]; [|done]. exists x.
        split; [done|]. split; [done|]. by intros ->.
      - intros name. unfold Js.get. destruct (d !! key); [intros [=]|].
        destruct (decide (key ∈ Object_prototype)) as [Hin|Hout].
        + rewrite bool_decide_eq_true_2 by done. by intros [= <-].
        + rewrite bool_decide_eq_false_2 by done. intros [=]. }
    destruct f as [[|d]|]; unfold try_catch, mbind, M_bind, readSecret in H;
      simpl in H.
    + inversion H.
    + apply (Hd d (loads_Json d)).
      by destruct (Js.truthy_mem (Js.get d key)).
    + apply (Hd INITIAL_STATE loads_fresh).
      unfold getSecretState in H. simpl in H.
      by destruct (Js.truthy_mem (Js.get INITIAL_STATE key)).
  - intros Hin Hinh.
    assert (H : Forall (λ name : string, name ∉ Object_prototype) EXPORTABLE_KEYS).
    { apply (bool_decide_unpack _). vm_compute. exact I. }
    rewrite Forall_forall in H. by apply (H key).
  - intros secrets f'. unfold post_view. destruct allow; simpl.
    + destruct f as [[|d]|]; intros H; inversion H. done.
    + intros H. inversion H.
  - intros -> Hout. unfold post_find. simpl.
    by rewrite (bool_decide_eq_false_2 _ Hout).
  - by intros ->.
Qed.

Lemma exposure_gate_witness :
  post_find false "api_key_openai" (Some Garbage) =
    (inr (sendStatus 403), Some Garbage).
Proof.
  destruct (exposure_gate false "api_key_openai" (Some Garbage))
    as (_ & _ & _ & Hfind & _).
  apply Hfind; [reflexivity|].
  apply (bool_decide_unpack _). vm_compute. exact I.
Defined.

(** X6. The functions and routes that read never write: whatever the file is,
    absent, unparseable or a document, it is the same after the call. In
    particular a read does not create the file. *)
Theorem reads_leave_file (allow : bool) key f :
  snd (getSecretState f) = f ∧
  snd (readSecret key f) = f ∧
  snd (probeManagedKey key f) = f ∧
  snd (readManagedSecretsState f) = f ∧
  snd (readSecretState f) = f ∧
  snd (getAllSecrets f) = f ∧
  snd (post_read f) = f ∧
  snd (post_view allow f) = f ∧
  snd (post_find allow key f) = f.
Proof.
  destruct f as [[|d]|].
  - repeat split; try done.
    + by destruct allow.
    + unfold post_find. by destruct (_ && _).
  - pose proof (loads_Json d) as Hf.
    destruct (probeManagedKey_spec _ d key Hf) as (p & Hp & _).
    destruct (readManagedSecretsState_run _ d Hf) as (view & Hview & _).
    rewrite Hp, Hview. repeat split; try done.
    + by destruct allow.
    + unfold post_find. destruct (_ && _); [done|].
      unfold try_catch, mbind, M_bind. rewrite (readSecret_run _ _ key Hf).
      by destruct (Js.truthy_mem _).
  - pose proof loads_fresh as Hf.
    destruct (probeManagedKey_spec _ _ key Hf) as (p & Hp & _).
    destruct (readManagedSecretsState_run _ _ Hf) as (view & Hview & _).
    rewrite Hp, Hview. repeat split; try done.
    + by destruct allow.
    + unfold post_find. destruct (_ && _); [done|].
      unfold try_catch, mbind, M_bind. rewrite (readSecret_run _ _ key Hf).
      by destruct (Js.truthy_mem _).
Qed.

(** ** Probing *)

Lemma strict_eq_sym A B : Js.strict_eq A B = Js.strict_eq B A.
Proof.
  destruct A as [|[s|m]|n], B as [|[t|m']|n']; simpl; try done;
    apply String.eqb_sym.
Qed.

Lemma findIndex_from_fmap {T U} (g : T → U) (p : U → bool) (l : list T) i :
  Js.findIndex_from p (g <$> l) i = Js.findIndex_from (λ x, p (g x)) l i.
Proof.
  revert i. induction l as [|x l IH]; intros i; simpl; [done|].
  by rewrite IH.
Qed.

Lemma findIndex_from_ext {T} (p q : T → bool) (l : list T) i :
  (∀ x, p x = q x) → Js.findIndex_from p l i = Js.findIndex_from q l i.
Proof.
  intros H. revert i. induction l as [|x l IH]; intros i; simpl; [done|].
  by rewrite H, IH.
Qed.

Lemma findIndex_bounds {T} (p : T → bool) (l : list T) :
  -1 ≤ Js.findIndex p l < Js.length_ l.
Proof.
  unfold Js.findIndex, Js.length_.
  destruct (findIndex_from_spec p l 0) as [[-> _]|[(j & x & -> & Hx & _)|?]];
    [lia| |lia].
  apply lookup_lt_Some in Hx. lia.
Qed.

(** X7. The probe of a key on a loaded document: [result] is true exactly when
    [index] is not negative, [index] is -1 or a position of the managed list
    of the key, and, for a key other than [__proto__], which the manager
    view does not show, it is the position of the first record that the view
    marks as selected under that key. A key without a managed list is
    reported as [{false, -1}]. *)
Theorem probe_index_sound f d key :
  loads f d →
  ∃ p view,
    probeManagedKey key f = (inr p, f) ∧
    readManagedSecretsState f = (inr view, f) ∧
    (result p = true ↔ 0 ≤ index p) ∧
    -1 ≤ index p < Js.length_ (default [] (managed_list d key)) ∧
    (managed_list d key = None → p = mkProbe false (-1)) ∧
    (∀ L, key ≠ "__proto__" → managed_list d key = Some L →
       ∃ states, view !! key = Some states ∧ length states = length L ∧
                 index p = Js.findIndex selected states).
Proof.
  intros Hf.
  destruct (readManagedSecretsState_run f d Hf) as (view & Hview & Hkeys).
  destruct (managed_list d key) as [L|] eqn:HL.
  - rewrite (probeManagedKey_managed f d key L Hf HL).
    eexists; exists view. split; [done|]. split; [done|]. cbn [result index].
    pose proof (findIndex_bounds
                  (λ k, Js.strict_eq (Js.mem (value k)) (Js.get d key)) L)
      as Hb.
    split; [|split; [done|split; [done|]]].
    + rewrite negb_true_iff, Z.eqb_neq. lia.
    + intros L' Hproto [= <-]. exists (redact (Js.get d key) <$> L).
      split.
      { rewrite Hkeys. apply String.eqb_neq in Hproto. rewrite Hproto.
        by rewrite (shown_managed_list_Some _ _ _ HL). }
      split; [apply length_fmap|].
      unfold Js.findIndex. rewrite findIndex_from_fmap.
      apply findIndex_from_ext. intros k. simpl. apply strict_eq_sym.
  - rewrite (probeManagedKey_unmanaged f d key Hf HL).
    eexists; exists view. split; [done|]. split; [done|]. simpl.
    unfold Js.length_. simpl. repeat split; try done; lia.
Qed.

Lemma probe_index_sound_witness :
  let a := mkManagedKey (Some "a") (Some (VStr "1")) in
  let b := mkManagedKey (Some "b") (Some (VStr "2")) in
  let d : SecretState :=
    {[ "K" := VStr "2"; "managed" := VRec {[ "K" := [a; b] ]} ]} in
  ∃ p, probeManagedKey "K" (Some (Json d)) = (inr p, Some (Json d)) ∧
       0 ≤ index p < 2.
Proof.
  intros a b d.
  destruct (probe_index_sound (Some (Json d)) d "K" (loads_Json d))
    as (p & view & Hp & _ & Hres & Hidx & _).
  exists p. split; [exact Hp|]. split; [|exact (proj2 Hidx)].
  apply Hres.
  assert (probeManagedKey "K" (Some (Json d)) =
          (inr (mkProbe true 1), Some (Json d))) as E
    by (vm_compute; reflexivity).
  rewrite E in Hp. injection Hp as <-. reflexivity.
Defined.

(** ** Rotating *)

Lemma cyclic_next_elem A L k : cyclic_next A L k → k ∈ L.
Proof.
  intros [Hnext Hhead].
  destruct (first_match_or_none A L) as [[j Hj]|Hno].
  - eapply list_elem_of_lookup_2. by apply (Hnext j).
  - eapply list_elem_of_lookup_2. by apply Hhead.
Qed.

(** Over a list that is not empty a rotation always selects one of its
    elements. *)
Lemma rotate_selects_elem f d key (s : search) L :
  loads f d → managed_list d key = Some L → L ≠ [] →
  ∃ k, k ∈ L ∧ selects f d key s k.
Proof.
  intros Hf HL Hne.
  destruct (falls_back_dec s L)
    as [(n & -> & Hn)|[(t & j & k & -> & Ht & Hj & Hk & Hlt)|Hfb]].
  - assert (Z.to_nat n < length L)%nat as Hlt
      by (unfold Js.length_ in Hn; lia).
    destruct (lookup_lt_is_Some_2 L _ Hlt) as [k Hk].
    exists k. split; [by eapply list_elem_of_lookup_2|].
    by apply rotate_by_index with L.
  - exists k. split; [by eapply list_elem_of_lookup_2|].
    apply rotate_by_comment with L; [done..|].
    apply find_first. by exists j.
  - destruct (rotate_fallback f d key s L Hf HL Hne Hfb) as (k & Hsel & Hnext).
    exists k. split; [by eapply cyclic_next_elem|done].
Qed.

Lemma managed_list_assign d key key' v :
  key ≠ "managed" → managed_list (assign key v d) key' = managed_list d key'.
Proof.
  intros Hne. unfold managed_list. by rewrite assign_lookup_ne.
Qed.

(** X8. A rotation leaves the key managed. For a key other than [managed]
    that names no member of [Object.prototype], whose list is not empty and
    holds strings (or missing values), whatever the search and whatever the
    active value was, the probe that follows the rotation reports the key as
    managed, at the first position of the list that holds the new active
    value; the list itself is as before. *)
Theorem rotate_then_probe f d key (s : search) L :
  loads f d → key ≠ "managed" → ¬ inherited key →
  managed_list d key = Some L → L ≠ [] →
  (∀ k, k ∈ L → plain (value k)) →
  ∃ (j : nat) d',
    (rotateManagedSecret key s;; probeManagedKey key) f =
      (inr (mkProbe true (Z.of_nat j)), Some (Json d')) ∧
    managed_list d' key = Some L ∧
    first_match (active d' key) L j ∧
    active d' key = Js.mem (d' !! key) ∧
    ∃ k, k ∈ L ∧ d' !! key = value k.
Proof.
  intros Hf Hkey Hown HL Hne Hplain.
  pose proof (not_inherited_proto key Hown) as Hproto.
  destruct (rotate_selects_elem f d key s L Hf HL Hne) as (k & Hk & Hsel).
  set (d' := assign key (value k) d).
  assert (HL' : managed_list d' key = Some L)
    by (unfold d'; by rewrite managed_list_assign).
  assert (HA : d' !! key = value k) by (by apply assign_lookup).
  assert (HG : Js.get d' key = Js.mem (value k))
    by (by rewrite (get_not_inherited d' key Hown), HA).
  destruct (probeManagedKey_spec _ d' key (loads_Json d'))
    as (p & Hp & Htrue & Hfalse).
  destruct p as [[|] i]; simpl in *.
  - destruct (Htrue eq_refl) as (L0 & j & HL0 & -> & Hj).
    rewrite HL' in HL0. injection HL0 as <-.
    exists j, d'. split; [|split; [done|split; [done|split]]].
    + unfold mbind, M_bind. unfold selects in Hsel. by rewrite Hsel.
    + unfold active. by rewrite HG, HA.
    + by exists k.
  - destruct (Hfalse eq_refl) as [_ Hno]. rewrite HL', HG in Hno.
    specialize (Hno k Hk). rewrite strict_eq_refl in Hno; [done|].
    by apply Hplain.
Qed.

Lemma rotate_then_probe_witness :
  let a := mkManagedKey (Some "a") (Some (VStr "1")) in
  let b := mkManagedKey (Some "b") (Some (VStr "2")) in
  let d : SecretState :=
    {[ "K" := VStr "stale"; "managed" := VRec {[ "K" := [a; b] ]} ]} in
  ∃ (j : nat) f',
    (rotateManagedSecret "K" SOther;; probeManagedKey "K") (Some (Json d)) =
      (inr (mkProbe true (Z.of_nat j)), f').
Proof.
  intros a b d.
  destruct (rotate_then_probe (Some (Json d)) d "K" SOther [a; b]
              (loads_Json d) ltac:(discriminate) not_inherited_K eq_refl
              ltac:(discriminate))
    as (j & d' & Hrun & _).
  - intros k Hk. right.
    apply elem_of_cons in Hk as [->|Hk]; [by exists "1"|].
    apply list_elem_of_singleton in Hk as ->. by exists "2".
  - exists j, (Some (Json d')). exact Hrun.
Defined.

(** X9. A rotation on a loaded document never throws and writes at most the
    active value of its key: every other property of the document is as
    before, so, for a key other than [managed], are all the managed lists.
    When the list of the key is not empty the file is written and, for a key
    other than [__proto__], the property of the key is afterwards the value
    of an element of the list; under [__proto__], on a document without such
    a property, the document is as before. When the list is absent or empty
    the file is not written: file and document are the ones found. *)
Theorem rotate_frame f d key (s : search) :
  loads f d →
  ∃ f' d',
    rotateManagedSecret key s f = (inr (), f') ∧ loads f' d' ∧
    (∀ key', key' ≠ key → d' !! key' = d !! key') ∧
    (key ≠ "managed" → ∀ key', managed_list d' key' = managed_list d key') ∧
    (∀ L, managed_list d key = Some L → L ≠ [] →
       f' = Some (Json d') ∧
       (key ≠ "__proto__" → ∃ k, k ∈ L ∧ d' !! key = value k) ∧
       (key = "__proto__" → d !! key = None → d' = d)) ∧
    (managed_list d key = None ∨ managed_list d key = Some [] →
       f' = f ∧ d' = d).
Proof.
  intros Hf.
  destruct (managed_list d key) as [[|k0 L]|] eqn:HL.
  - exists f, d. split; [apply (rotate_nothing f d key s Hf); by right|].
    split; [done|]. split; [done|]. split; [done|]. split; [|done].
    by intros L [= <-].
  - destruct (rotate_selects_elem f d key s (k0 :: L) Hf HL)
      as (k & Hk & Hsel); [done|].
    exists (Some (Json (assign key (value k) d))), (assign key (value k) d).
    split; [exact Hsel|]. split; [done|]. split; [|split; [|split]].
    + intros key' Hne. by apply assign_lookup_ne.
    + intros Hkey key'. by apply managed_list_assign.
    + intros L' [= <-] _. split; [done|]. split.
      * intros Hproto. exists k. split; [done|]. by apply assign_lookup.
      * intros -> Hnone. by apply assign_proto.
    + intros [H|H]; discriminate H.
  - exists f, d. split; [apply (rotate_nothing f d key s Hf); by left|].
    split; [done|]. split; [done|]. split; [done|]. split; [|done].
    intros L [=].
Qed.

Lemma rotate_frame_witness :
  let a := mkManagedKey (Some "a") (Some (VStr "1")) in
  let d : SecretState :=
    {[ "other" := VStr "x"; "managed" := VRec {[ "K" := [a] ]} ]} in
  ∃ f' d',
    rotateManagedSecret "K" SOther (Some (Json d)) = (inr (), f') ∧
    loads f' d' ∧ d' !! "other" = Some (VStr "x") ∧
    d' !! "K" = Some (VStr "1").
Proof.
  intros a d.
  destruct (rotate_frame (Some (Json d)) d "K" SOther (loads_Json d))
    as (f' & d' & Hrun & Hf' & Hframe & _ & Hsel & _).
  exists f', d'. split; [exact Hrun|]. split; [exact Hf'|]. split.
  - rewrite (Hframe "other"); [reflexivity|discriminate].
  - destruct (Hsel [a] eq_refl ltac:(discriminate)) as (_ & Hk & _).
    destruct (Hk ltac:(discriminate)) as (k & Hin & ->).
    apply list_elem_of_singleton in Hin as ->. reflexivity.
Defined.

(** X10. A rotation by an index in range or by a comment that matches does not
    depend on the active value, so doing it twice is doing it once. *)
Theorem rotate_by_search_idempotent f d key (s : search) L :
  loads f d → key ≠ "managed" →
  managed_list d key = Some L → ¬ falls_back s L →
  (rotateManagedSecret key s;; rotateManagedSecret key s) f =
    rotateManagedSecret key s f.
Proof.
  intros Hf Hkey HL Hs.
  assert (Hk : ∃ k, ∀ f0 d0, loads f0 d0 → managed_list d0 key = Some L →
                             selects f0 d0 key s k).
  { destruct (falls_back_dec s L)
      as [(n & -> & Hn)|[(t & j & k & -> & Ht & Hj & Hk & Hlt)|Hfb]];
      [| |done].
    - assert (Z.to_nat n < length L)%nat as Hlt
        by (unfold Js.length_ in Hn; lia).
      destruct (lookup_lt_is_Some_2 L _ Hlt) as [k Hk].
      exists k. intros f0 d0 Hf0 HL0. by apply rotate_by_index with L.
    - exists k. intros f0 d0 Hf0 HL0.
      apply rotate_by_comment with L; [done..|].
      apply find_first. by exists j. }
  destruct Hk as [k Hk].
  pose proof (Hk f d Hf HL) as H1. unfold selects in H1.
  set (d' := assign key (value k) d) in *.
  assert (HL' : managed_list d' key = Some L)
    by (unfold d'; by rewrite managed_list_assign).
  pose proof (Hk _ d' (loads_Json d') HL') as H2. unfold selects in H2.
  unfold mbind, M_bind. rewrite H1, H2. unfold d'.
  by rewrite assign_idemp.
Qed.

Lemma rotate_by_search_idempotent_witness :
  let a := mkManagedKey (Some "a") (Some (VStr "1")) in
  let b := mkManagedKey (Some "b") (Some (VStr "2")) in
  let d : SecretState := {[ "managed" := VRec {[ "K" := [a; b] ]} ]} in
  (rotateManagedSecret "K" (SNum 1);; rotateManagedSecret "K" (SNum 1))
    (Some (Json d)) =
  rotateManagedSecret "K" (SNum 1) (Some (Json d)).
Proof.
  intros a b d.
  apply (rotate_by_search_idempotent (Some (Json d)) d "K" (SNum 1) [a; b]
           (loads_Json d) ltac:(discriminate) eq_refl).
  simpl. unfold Js.length_. simpl. lia.
Defined.

(** ** Appending and splicing *)

Lemma with_list_with_list d key L L' :
  with_list key L (with_list key L' d) = with_list key L d.
Proof.
  assert (E : lists_of (with_list key L' d) = <[key := L']> (lists_of d)).
  { unfold with_list. unfold lists_of at 1. by rewrite lookup_insert_eq. }
  unfold with_list at 1. rewrite E. unfold with_list.
  by rewrite !insert_insert_eq.
Qed.

Lemma with_list_id d key L :
  managed_list d key = Some L → with_list key L d = d.
Proof.
  intros HL. apply managed_list_rec in HL as (m & Hm & HL).
  unfold with_list, lists_of. rewrite Hm.
  rewrite (insert_id m key L HL). by apply insert_id.
Qed.

(** X11. An append on a loaded document whose [managed] property is not a
    non-empty string, under a key that has a list or names no member of
    [Object.prototype], succeeds: the list of the key, made if there was
    none, has the new element at its end and its old elements before it, and
    the list of every other key is as before. On a document whose [managed]
    property is a non-empty string, and under a key without a list that
    names a member of [Object.prototype], the append throws a [TypeError]
    and the file is not written. *)
Theorem append_grows_list f d key c v :
  loads f d →
  (well_managed d → (managed_list d key = None → ¬ inherited key) →
     ∃ d', appendManagedKey key c v f = (inr (), Some (Json d')) ∧
           managed_list d' key =
             Some (default [] (managed_list d key) ++ [mkManagedKey c v])%list ∧
           (∀ key', key' ≠ key → managed_list d' key' = managed_list d key') ∧
           well_managed d') ∧
  (¬ well_managed d → appendManagedKey key c v f = (inl TypeError, f)) ∧
  (managed_list d key = None → inherited key →
     appendManagedKey key c v f = (inl TypeError, f)).
Proof.
  intros Hf. split; [|split].
  - intros Hwm Hkey. exists (appended key c v d).
    split; [by apply appendManagedKey_run|].
    split; [apply managed_list_with_list|]. split.
    + intros key' Hne. by apply managed_list_with_list_ne.
    + apply well_managed_with_list.
  - intros Hwm. by apply appendManagedKey_throws with d.
  - intros HL Hin. by apply appendManagedKey_throws_inherited with d.
Qed.

Lemma append_grows_list_witness :
  ∃ d', appendManagedKey "K" (Some "first") (Some (VStr "v")) None =
          (inr (), Some (Json d')) ∧
        managed_list d' "K" = Some [mkManagedKey (Some "first") (Some (VStr "v"))].
Proof.
  destruct (append_grows_list None INITIAL_STATE "K" (Some "first")
              (Some (VStr "v")) loads_fresh) as [Hok _].
  destruct (Hok I (λ _, not_inherited_K)) as (d' & Hrun & HL & _).
  exists d'. split; [exact Hrun | exact HL].
Defined.

(** X12. An append undone by the splice of the last position, under a key
    that has a list or names no member of [Object.prototype]: the list of
    the key is the old one. When the key had a list, the document is the one
    before the append; when it had none, it now has an empty list. *)
Theorem append_then_splice_last f d key c v :
  loads f d → well_managed d →
  (managed_list d key = None → ¬ inherited key) →
  let L0 := default [] (managed_list d key) in
  ∃ d',
    (appendManagedKey key c v;; spliceManagedKey key (Js.length_ L0)) f =
      (inr (), Some (Json d')) ∧
    managed_list d' key = Some L0 ∧
    (managed_list d key = Some L0 → d' = d) ∧
    (managed_list d key = None → d' = with_list key [] d).
Proof.
  intros Hf Hwm Hinh L0. exists (with_list key L0 d).
  split; [|split; [apply managed_list_with_list|split]].
  - unfold mbind, M_bind.
    rewrite (appendManagedKey_run _ _ _ _ _ Hf Hwm Hinh).
    rewrite (spliceManagedKey_run _ (appended key c v d) key
               (L0 ++ [mkManagedKey c v]) _ (loads_Json _)).
    + unfold appended. rewrite with_list_with_list. fold L0.
      unfold Js.length_. rewrite Nat2Z.id.
      by rewrite (delete_middle L0 [] (mkManagedKey c v)), app_nil_r.
    + apply managed_list_with_list.
    + unfold Js.length_. rewrite length_app. simpl. lia.
  - intros HL. by apply with_list_id.
  - intros HL. unfold L0. by rewrite HL.
Qed.

Lemma append_then_splice_last_witness :
  let a := mkManagedKey (Some "a") (Some (VStr "1")) in
  let d : SecretState := {[ "managed" := VRec {[ "K" := [a] ]} ]} in
  (appendManagedKey "K" (Some "b") (Some (VStr "2"));;
   spliceManagedKey "K" 1) (Some (Json d)) = (inr (), Some (Json d)).
Proof.
  intros a d.
  destruct (append_then_splice_last (Some (Json d)) d "K" (Some "b")
              (Some (VStr "2")) (loads_Json d) I (λ _, not_inherited_K))
    as (d' & Hrun & _ & Hsame & _).
  rewrite <- (Hsame eq_refl) at 2. exact Hrun.
Defined.

(** X14. A splice followed by a rotation without search, which is what clearing
    the current key does, for a key other than [managed] and [__proto__].
    The removed element is gone from the list; when the list is then empty
    the rotation does nothing and the active value of the key is the one it
    was, and when it is not and none of its elements has the old active
    value, the head of the list becomes active. *)
Theorem splice_then_rotate f d key (i : Z) L :
  loads f d → key ≠ "managed" → key ≠ "__proto__" →
  managed_list d key = Some L → 0 ≤ i < Js.length_ L →
  let L' := delete (Z.to_nat i) L in
  ∃ d',
    (spliceManagedKey key i;; rotateManagedSecret key (SStr "")) f =
      (inr (), Some (Json d')) ∧
    managed_list d' key = Some L' ∧
    (L' = [] → d' !! key = d !! key) ∧
    (∀ k, L' !! 0%nat = Some k → no_match (Js.get d key) L' →
          d' !! key = value k).
Proof.
  intros Hf Hkey Hproto HL Hi L'.
  set (d1 := with_list key L' d).
  assert (HL1 : managed_list d1 key = Some L') by apply managed_list_with_list.
  assert (HA1 : d1 !! key = d !! key) by (by apply lookup_with_list).
  assert (HG1 : Js.get d1 key = Js.get d key) by (by apply get_ne).
  assert (Hsplice := spliceManagedKey_run f d key L i Hf HL Hi).
  fold L' d1 in Hsplice.
  destruct (decide (L' = [])) as [Hnil|Hne].
  - exists d1. split; [|split; [done|split; [done|]]].
    + unfold mbind, M_bind. rewrite Hsplice.
      apply (rotate_nothing _ d1 key _ (loads_Json d1)).
      right. by rewrite HL1, Hnil.
    + intros k Hk. rewrite Hnil in Hk. done.
  - destruct (rotate_fallback _ d1 key (SStr "") L' (loads_Json d1) HL1 Hne)
      as (k & Hsel & _ & Hhead); [by left|].
    exists (assign key (value k) d1).
    split; [|split; [by rewrite managed_list_assign|split; [done|]]].
    + unfold mbind, M_bind. by rewrite Hsplice.
    + intros k0 Hk0 Hno. rewrite assign_lookup by done.
      rewrite HG1 in Hhead. specialize (Hhead Hno). congruence.
Qed.

Lemma splice_then_rotate_witness :
  let a := mkManagedKey (Some "a") (Some (VStr "1")) in
  let d : SecretState :=
    {[ "K" := VStr "1"; "managed" := VRec {[ "K" := [a] ]} ]} in
  ∃ d',
    (spliceManagedKey "K" 0;; rotateManagedSecret "K" (SStr ""))
      (Some (Json d)) = (inr (), Some (Json d')) ∧
    managed_list d' "K" = Some [] ∧
    d' !! "K" = Some (VStr "1").
Proof.
  intros a d.
  destruct (splice_then_rotate (Some (Json d)) d "K" 0 [a] (loads_Json d)
              ltac:(discriminate) ltac:(discriminate) eq_refl)
    as (d' & Hrun & HL & Hstale & _).
  - unfold Js.length_. simpl. lia.
  - exists d'. split; [exact Hrun|]. split; [exact HL|].
    rewrite (Hstale eq_refl). reflexivity.
Defined.

Lemma appends_in_sequence_witness :
  ∃ f' d',
    appends "K" [(Some "a", Some (VStr "1")); (Some "b", Some (VStr "2"));
                 (Some "c", Some (VStr "3"))] None = (inr (), f') ∧
    loads f' d' ∧
    length (default [] (managed_list d' "K")) = 3%nat.
Proof.
  destruct (appends_in_sequence None INITIAL_STATE "K"
              [(Some "a", Some (VStr "1")); (Some "b", Some (VStr "2"));
               (Some "c", Some (VStr "3"))] loads_fresh I
              (λ _, not_inherited_K))
    as (f' & d' & Hrun & Hf' & HL).
  exists f', d'. split; [exact Hrun|]. split; [exact Hf'|].
  rewrite HL. reflexivity.
Defined.

(** ** Migrating *)

Lemma migrate_then_probe_aux d key c :
  well_managed d → key ≠ "managed" → ¬ inherited key →
  managed_list d key = None → plain (d !! key) →
  ∃ d',
    post_manager_migrate key c (Some (Json d)) =
      (inr (sendStatus 204), Some (Json d')) ∧
    managed_list d' key =
      Some (default [] (managed_list d key) ++ [mkManagedKey c (d !! key)])%list ∧
    d' !! key = d !! key ∧
    well_managed d'.
Proof.
  intros Hwm Hkey Hown HL HA.
  pose proof (probeManagedKey_unmanaged _ d key (loads_Json d) HL) as Hp.
  exists (appended key c (d !! key) d). split.
  { rewrite (migrate_append _ d key c (mkProbe false (-1)) (loads_Json d) Hwm);
      [|done..].
    by rewrite (get_not_inherited d key Hown), json_mem. }
  split; [apply managed_list_with_list|].
  split; [by apply lookup_with_list|apply well_managed_with_list].
Qed.

(** X15. A migration that is not a conflict makes the key managed at the last
    position: for a key other than [managed] that names no member of
    [Object.prototype], whose active value is a string or missing and is
    found nowhere in the list, the migration answers 204 and the probe that
    follows reports [{true, n}], [n] being the length the list had. Under a
    key without a list that names a member of [Object.prototype], the
    migration throws a [TypeError] and the file is not written. *)
Theorem migrate_then_probe f d key c :
  loads f d → well_managed d → key ≠ "managed" →
  plain (d !! key) →
  let L0 := default [] (managed_list d key) in
  no_match (active d key) L0 →
  (¬ inherited key →
   ∃ d',
     post_manager_migrate key c f = (inr (sendStatus 204), Some (Json d')) ∧
     probeManagedKey key (Some (Json d')) =
       (inr (mkProbe true (Js.length_ L0)), Some (Json d')) ∧
     d' !! key = d !! key) ∧
  (inherited key → managed_list d key = None →
   post_manager_migrate key c f = (inl TypeError, f)).
Proof.
  intros Hf Hwm Hkey HA L0 Hno. split.
  - intros Hown. unfold active in Hno.
    destruct (probeManagedKey_spec f d key Hf) as (p & Hp & Htrue & _).
    assert (Hr : result p = false).
    { destruct (result p); [|done].
      destruct (Htrue eq_refl) as (L & j & HL & _ & [(k & Hk & Hv) _]).
      unfold L0 in Hno. rewrite HL in Hno. simpl in Hno.
      rewrite Hno in Hv; [done|]. by eapply list_elem_of_lookup_2. }
    set (d' := appended key c (d !! key) d).
    assert (HL' : managed_list d' key =
                  Some (L0 ++ [mkManagedKey c (d !! key)])%list)
      by apply managed_list_with_list.
    assert (HA' : d' !! key = d !! key) by (by apply lookup_with_list).
    assert (HG : Js.get d key = Js.mem (d !! key))
      by (by apply get_not_inherited).
    assert (HG' : Js.get d' key = Js.mem (d !! key))
      by (by rewrite (get_not_inherited d' key Hown), HA').
    exists d'. split; [|split; [|done]].
    + rewrite (migrate_append f d key c p Hf Hwm); [|done..].
      by rewrite HG, json_mem.
    + rewrite (probeManagedKey_managed _ d' key _ (loads_Json d') HL').
      rewrite HG'.
      rewrite (findIndex_first (Js.mem (d !! key)) _ (length L0)).
      * unfold Js.length_. cbv zeta.
        rewrite (proj2 (Z.eqb_neq (Z.of_nat (length L0)) (-1))) by lia. done.
      * apply first_match_snoc; [by rewrite <- HG|].
        simpl. by apply strict_eq_refl.
  - intros Hin HL. by apply migrate_throws_inherited with d.
Qed.

Lemma migrate_then_probe_witness :
  let d : SecretState := <[ "K" := VStr "v1" ]> INITIAL_STATE in
  ∃ d',
    post_manager_migrate "K" (Some "first") (Some (Json d)) =
      (inr (sendStatus 204), Some (Json d')) ∧
    probeManagedKey "K" (Some (Json d')) =
      (inr (mkProbe true 0), Some (Json d')).
Proof.
  intros d.
  destruct (migrate_then_probe (Some (Json d)) d "K" (Some "first")
              (loads_Json d) I ltac:(discriminate))
    as [Hok _].
  - right. by exists "v1".
  - intros k Hk. by apply elem_of_nil in Hk.
  - destruct (Hok not_inherited_K) as (d' & Hrun & Hprobe & _).
    exists d'. split; [exact Hrun | exact Hprobe].
Defined.

(** X16. A legacy key taken under management: on a key other than [managed]
    that names no member of [Object.prototype] and has no managed list,
    writing [v1], migrating it, appending a different value [v2] and rotating
    without search leaves the list [[{c1, v1}; {c2, v2}]], makes [v2] the
    active value, and the probe reports [{true, 1}]. *)
Theorem write_migrate_append_rotate f d key c1 c2 (v1 v2 : string) :
  loads f d → well_managed d → key ≠ "managed" → ¬ inherited key →
  managed_list d key = None → v1 ≠ v2 →
  ∃ d',
    (writeSecret key (Some (VStr v1));;
     post_manager_migrate key c1;;
     appendManagedKey key c2 (Some (VStr v2));;
     rotateManagedSecret key (SStr "");;
     probeManagedKey key) f = (inr (mkProbe true 1), Some (Json d')) ∧
    d' !! key = Some (VStr v2) ∧
    managed_list d' key =
      Some [mkManagedKey c1 (Some (VStr v1)); mkManagedKey c2 (Some (VStr v2))].
Proof.
  intros Hf Hwm Hkey Hown HL Hv.
  pose proof (not_inherited_proto key Hown) as Hproto.
  set (e1 := mkManagedKey c1 (Some (VStr v1))).
  set (e2 := mkManagedKey c2 (Some (VStr v2))).
  set (d1 := assign key (Some (VStr v1)) d).
  assert (HL1 : managed_list d1 key = None)
    by (unfold d1; by rewrite managed_list_assign).
  assert (HA1 : d1 !! key = Some (VStr v1)) by (by apply assign_lookup).
  assert (Hwm1 : well_managed d1).
  { unfold well_managed, d1. by rewrite assign_lookup_ne. }
  destruct (migrate_then_probe_aux d1 key c1) as (d2 & Hmig & HL2 & HA2 & Hwm2);
    [done..| |].
  { rewrite HA1. right. by exists v1. }
  rewrite HA1, HL1 in HL2. simpl in HL2. fold e1 in HL2.
  set (d3 := appended key c2 (Some (VStr v2)) d2).
  assert (HL3 : managed_list d3 key = Some [e1; e2]).
  { unfold d3, appended. rewrite managed_list_with_list, HL2. done. }
  assert (HA3 : d3 !! key = Some (VStr v1)).
  { unfold d3, appended. rewrite lookup_with_list by done. congruence. }
  assert (HG3 : Js.get d3 key = Stored (VStr v1)).
  { unfold Js.get. by rewrite HA3. }
  destruct (rotate_fallback _ d3 key (SStr "") [e1; e2] (loads_Json d3) HL3)
    as (k & Hsel & Hnext & _); [done|by left|].
  assert (Hk : k = e2).
  { rewrite HG3 in Hnext.
    specialize (Hnext 0%nat). simpl in Hnext.
    assert (Some e2 = Some k) as [= <-]; [|done].
    apply Hnext. split.
    - exists e1. split; [done|]. simpl. apply String.eqb_refl.
    - intros i k' Hi. lia. }
  subst k. set (d4 := assign key (value e2) d3).
  assert (HL4 : managed_list d4 key = Some [e1; e2])
    by (unfold d4; by rewrite managed_list_assign).
  assert (HA4 : d4 !! key = Some (VStr v2)) by (by apply assign_lookup).
  assert (HG4 : Js.get d4 key = Stored (VStr v2)).
  { unfold Js.get. by rewrite HA4. }
  exists d4. split; [|done].
  unfold mbind, M_bind.
  rewrite (writeSecret_run _ _ _ _ Hf). fold d1. rewrite Hmig.
  rewrite (appendManagedKey_run _ d2 _ _ _ (loads_Json d2) Hwm2);
    [|by intros _].
  fold d3.
  unfold selects in Hsel. rewrite Hsel. fold d4.
  rewrite (probeManagedKey_managed _ d4 key _ (loads_Json d4) HL4), HG4.
  unfold Js.findIndex. simpl.
  apply String.eqb_neq in Hv. rewrite Hv, String.eqb_refl. done.
Qed.

Lemma write_migrate_append_rotate_witness :
  ∃ d',
    (writeSecret "K" (Some (VStr "v1"));;
     post_manager_migrate "K" (Some "first");;
     appendManagedKey "K" (Some "second") (Some (VStr "v2"));;
     rotateManagedSecret "K" (SStr "");;
     probeManagedKey "K") None = (inr (mkProbe true 1), Some (Json d')) ∧
    d' !! "K" = Some (VStr "v2").
Proof.
  destruct (write_migrate_append_rotate None INITIAL_STATE "K" (Some "first")
              (Some "second") "v1" "v2" loads_fresh I ltac:(discriminate)
              not_inherited_K eq_refl ltac:(discriminate))
    as (d' & Hrun & HA & _).
  exists d'. split; [exact Hrun | exact HA].
Defined.

(** ** The shape of the document *)

Lemma typed_well_managed d : typed d → well_managed d.
Proof. intros [[m Hm] _]. unfold well_managed. by rewrite Hm. Qed.

Lemma typed_INITIAL_STATE : typed INITIAL_STATE.
Proof.
  split; [by exists ∅|]. split.
  - intros key Hne. left. unfold INITIAL_STATE. by apply lookup_singleton_ne.
  - intros key L k HL. unfold managed_list, INITIAL_STATE in HL.
    rewrite lookup_singleton_eq in HL. simpl in HL.
    by rewrite lookup_empty in HL.
Qed.

Lemma typed_assign d key v :
  typed d → key ≠ "managed" → plain v → typed (assign key v d).
Proof.
  intros ([m Hm] & Hflat & Hlists) Hkey HA. split; [|split].
  - exists m. by rewrite assign_lookup_ne.
  - intros key' Hne. rewrite assign_lookup_full.
    case_bool_decide; [|by apply Hflat].
    case_bool_decide; [by left|done].
  - intros key' L k. rewrite managed_list_assign by done. apply Hlists.
Qed.

Lemma typed_with_list d key L :
  typed d → (∀ k, k ∈ L → plain (value k)) → typed (with_list key L d).
Proof.
  intros ([m Hm] & Hflat & Hlists) HL. split; [|split].
  - eexists. unfold with_list. apply lookup_insert_eq.
  - intros key' Hne. rewrite lookup_with_list by done. by apply Hflat.
  - intros key' L' k. destruct (decide (key = key')) as [<-|Hne].
    + rewrite managed_list_with_list. intros [= <-]. apply HL.
    + rewrite managed_list_with_list_ne by done. apply Hlists.
Qed.

Lemma typed_appended d key c v :
  typed d → plain v → typed (appended key c v d).
Proof.
  intros Ht HA. apply typed_with_list; [done|].
  intros k Hk. apply elem_of_app in Hk as [Hk|Hk].
  - destruct Ht as (_ & _ & Hlists).
    destruct (managed_list d key) as [L|] eqn:HL; simpl in Hk.
    + by apply (Hlists key L).
    + by apply elem_of_nil in Hk.
  - apply list_elem_of_singleton in Hk as ->. done.
Qed.

Lemma plain_fmap (v : option string) : plain (VStr <$> v).
Proof. destruct v as [s|]; [right; by exists s | by left]. Qed.

(** One request on a document of the declared shape. *)
Lemma handle_typed f d (r : request) :
  loads f d → typed d →
  request_key r ≠ "managed" → ¬ inherited (request_key r) →
  ∃ resp f' d',
    handle r f = (inr resp, f') ∧ loads f' d' ∧ typed d' ∧
    (resp = sendStatus 204 ∨ resp = sendStatus 409).
Proof.
  intros Hf Ht Hkey Hown. pose proof (typed_well_managed d Ht) as Hwm.
  destruct r as [key v|key s|key c v|key i|key c];
    simpl in Hkey; simpl in Hown; simpl.
  - exists (sendStatus 204), (Some (Json (assign key (VStr <$> v) d))),
      (assign key (VStr <$> v) d).
    split; [|split; [done|split; [|by left]]].
    + unfold post_write, mbind, M_bind.
      by rewrite (writeSecret_run _ _ _ _ Hf).
    + apply typed_assign; [done..|apply plain_fmap].
  - unfold post_manager_rotate, mbind, M_bind.
    destruct (managed_list d key) as [[|k0 L]|] eqn:HL.
    + rewrite (rotate_nothing f d key s Hf); [|by right].
      exists (sendStatus 204), f, d. split; [done|]. split; [done|].
      split; [done|by left].
    + destruct (rotate_selects_elem f d key s (k0 :: L) Hf HL)
        as (k & Hk & Hsel); [done|].
      unfold selects in Hsel. rewrite Hsel.
      exists (sendStatus 204), (Some (Json (assign key (value k) d))),
        (assign key (value k) d).
      split; [done|]. split; [done|]. split; [|by left].
      apply typed_assign; [done..|].
      destruct Ht as (_ & _ & Hlists). by apply (Hlists key (k0 :: L)).
    + rewrite (rotate_nothing f d key s Hf); [|by left].
      exists (sendStatus 204), f, d. split; [done|]. split; [done|].
      split; [done|by left].
  - unfold post_manager_append, mbind, M_bind.
    rewrite (appendManagedKey_run _ _ _ _ _ Hf Hwm); [|by intros _].
    eexists _, _, _. split; [done|]. split; [apply loads_Json|].
    split; [|by left]. apply typed_appended; [done|apply plain_fmap].
  - unfold post_manager_splice, mbind, M_bind.
    destruct (managed_list d key) as [L|] eqn:HL.
    + destruct (decide (0 ≤ i < Js.length_ L)) as [Hi|Hi].
      * rewrite (spliceManagedKey_run _ _ _ _ _ Hf HL Hi).
        eexists _, _, _. split; [done|]. split; [apply loads_Json|].
        split; [|by left]. apply typed_with_list; [done|].
        intros k Hk. apply list_elem_of_delete_inv in Hk.
        destruct Ht as (_ & _ & Hlists). by apply (Hlists key L).
      * rewrite (spliceManagedKey_nothing f d key i Hf); [|right; by exists L].
        exists (sendStatus 204), f, d. split; [done|]. split; [done|].
        split; [done|by left].
    + rewrite (spliceManagedKey_nothing f d key i Hf); [|by left].
      exists (sendStatus 204), f, d. split; [done|]. split; [done|].
      split; [done|by left].
  - destruct (probeManagedKey_spec f d key Hf) as (p & Hp & _).
    destruct (result p) eqn:Hr.
    + rewrite (migrate_conflict f d key c p Hf Hp Hr).
      exists (sendStatus 409), f, d. split; [done|]. split; [done|].
      split; [done|by right].
    + rewrite (migrate_append f d key c p Hf Hwm); [|done..].
      rewrite (get_not_inherited d key Hown), json_mem.
      eexists _, _, _. split; [done|]. split; [apply loads_Json|].
      split; [|by left]. apply typed_appended; [done|].
      destruct Ht as (_ & Hflat & _). by apply Hflat.
Qed.

(** X17. Requests that name neither the key [managed] nor a member of
    [Object.prototype] keep the document in the shape that its type
    declares, from the empty store on: [managed] stays a record of lists,
    every other property and every value kept in a list is a string or
    missing. On such documents none of these requests throws: each answers
    204, or 409 for a migration in conflict, so any sequence of such requests
    is handled to its end. *)
Theorem typed_requests_never_throw f d (rs : list request) :
  loads f d → typed d →
  Forall (λ r, request_key r ≠ "managed" ∧ ¬ inherited (request_key r)) rs →
  (∃ f' d', handle_all rs f = (inr (), f') ∧ loads f' d' ∧ typed d') ∧
  (∀ r, r ∈ rs →
     ∃ f1 d1, (handle r f = (inr (sendStatus 204), f1) ∨
               handle r f = (inr (sendStatus 409), f1)) ∧
              loads f1 d1 ∧ typed d1) ∧
  typed INITIAL_STATE.
Proof.
  intros Hf Ht Hrs. split; [|split; [|apply typed_INITIAL_STATE]].
  - revert f d Hf Ht. induction Hrs as [|r rs [Hr Hr'] Hrs IH]; intros f d Hf Ht.
    + exists f, d. done.
    + destruct (handle_typed f d r Hf Ht Hr Hr')
        as (resp & f1 & d1 & Hrun & Hf1 & Ht1 & _).
      destruct (IH f1 d1 Hf1 Ht1) as (f' & d' & Hruns & Hf' & Ht').
      exists f', d'. split; [|done].
      simpl. unfold mbind, M_bind. by rewrite Hrun.
  - intros r Hr. rewrite Forall_forall in Hrs.
    destruct (Hrs r Hr) as [Hk Hk'].
    destruct (handle_typed f d r Hf Ht Hk Hk')
      as (resp & f1 & d1 & Hrun & Hf1 & Ht1 & [-> | ->]);
      exists f1, d1; auto.
Qed.

Lemma typed_requests_never_throw_witness :
  ∃ f' d',
    handle_all [Write "K" (Some "v1"); Migrate "K" (Some "first");
                Append "K" (Some "second") (Some "v2");
                Splice "K" 5; Rotate "K" (SNum 1)] None = (inr (), f') ∧
    loads f' d' ∧ typed d'.
Proof.
  apply (typed_requests_never_throw None INITIAL_STATE _ loads_fresh
           typed_INITIAL_STATE).
  repeat (apply Forall_cons;
          split; [split; [discriminate|exact not_inherited_K]|]).
  apply Forall_nil_2.
Defined.

(** ** The comparison of comments *)

Lemma lower_char_idemp (a : ascii) :
  Js.lower_char (Js.lower_char a) = Js.lower_char a.
Proof.
  destruct a as [[] [] [] [] [] [] [] []]; vm_compute; reflexivity.
Qed.

Lemma is_space_lower_char (a : ascii) :
  Js.is_space (Js.lower_char a) = Js.is_space a.
Proof.
  destruct a as [[] [] [] [] [] [] [] []]; vm_compute; reflexivity.
Qed.

Lemma toLowerCase_idemp (s : string) :
  Js.toLowerCase (Js.toLowerCase s) = Js.toLowerCase s.
Proof.
  induction s as [|a s IH]; simpl; [done|].
  by rewrite lower_char_idemp, IH.
Qed.

Lemma trimStart_toLowerCase (s : string) :
  Js.trimStart (Js.toLowerCase s) = Js.toLowerCase (Js.trimStart s).
Proof.
  induction s as [|a s IH]; simpl; [done|].
  rewrite is_space_lower_char. by destruct (Js.is_space a).
Qed.

Lemma trimEnd_toLowerCase (s : string) :
  Js.trimEnd (Js.toLowerCase s) = Js.toLowerCase (Js.trimEnd s).
Proof.
  induction s as [|a s IH]; simpl; [done|].
  rewrite IH, is_space_lower_char.
  destruct (Js.trimEnd s); simpl; [|done]. by destruct (Js.is_space a).
Qed.

Lemma trimStart_idemp (s : string) :
  Js.trimStart (Js.trimStart s) = Js.trimStart s.
Proof.
  induction s as [|a s IH]; simpl; [done|].
  destruct (Js.is_space a) eqn:E; [done|]. simpl. by rewrite E.
Qed.

Lemma trimEnd_cons (a : ascii) (s : string) :
  Js.trimEnd (String a s) =
  match Js.trimEnd s with
  | EmptyString => if Js.is_space a then EmptyString else String a EmptyString
  | t => String a t
  end.
Proof. reflexivity. Qed.

Lemma trimEnd_idemp (s : string) : Js.trimEnd (Js.trimEnd s) = Js.trimEnd s.
Proof.
  induction s as [|a s IH]; [done|]. rewrite (trimEnd_cons a s).
  destruct (Js.trimEnd s) as [|b t] eqn:E.
  - destruct (Js.is_space a) eqn:Ea; [done|].
    rewrite trimEnd_cons. simpl. by rewrite Ea.
  - rewrite trimEnd_cons. by rewrite IH.
Qed.

Lemma trimEnd_trimStart (s : string) :
  Js.trimEnd (Js.trimStart s) = Js.trimStart (Js.trimEnd s).
Proof.
  induction s as [|a s IH]; simpl; [done|].
  destruct (Js.is_space a) eqn:Ea.
  - rewrite IH. destruct (Js.trimEnd s) as [|b t]; simpl; [done|].
    by rewrite Ea.
  - simpl. destruct (Js.trimEnd s) as [|b t]; simpl; by rewrite Ea.
Qed.

Lemma trim_idemp (s : string) : Js.trim (Js.trim s) = Js.trim s.
Proof.
  unfold Js.trim.
  rewrite <- (trimEnd_trimStart (Js.trimStart s)).
  by rewrite trimEnd_idemp, trimStart_idemp.
Qed.

Lemma trim_toLowerCase (s : string) :
  Js.trim (Js.toLowerCase s) = Js.toLowerCase (Js.trim s).
Proof.
  unfold Js.trim. by rewrite trimStart_toLowerCase, trimEnd_toLowerCase.
Qed.

Lemma trimEnd_snoc_space (s : string) (a : ascii) :
  Js.is_space a = true →
  Js.trimEnd (s ++ String a EmptyString)%string = Js.trimEnd s.
Proof.
  intros Ha. induction s as [|b s IH]; simpl; [by rewrite Ha|].
  by rewrite IH.
Qed.

Lemma trim_padded (s : string) (a b : ascii) :
  Js.is_space a = true → Js.is_space b = true →
  Js.trim (String a (s ++ String b EmptyString)) = Js.trim s.
Proof.
  intros Ha Hb. unfold Js.trim. simpl. rewrite Ha.
  by rewrite !trimEnd_trimStart, trimEnd_snoc_space.
Qed.

(** X18. The comparison of a search with a comment sees neither the case nor
    the white space around either of them: lower-casing or trimming the
    search or the comment, or putting a white-space character before and
    after it, does not change whether they match. *)
Theorem comment_matches_insensitive (t u : string) (a b : ascii) v :
  Js.is_space a = true → Js.is_space b = true →
  let matches t u := comment_matches t (mkManagedKey (Some u) v) in
  matches (Js.toLowerCase t) u = matches t u ∧
  matches t (Js.toLowerCase u) = matches t u ∧
  matches (Js.trim t) u = matches t u ∧
  matches t (Js.trim u) = matches t u ∧
  matches (String a (t ++ String b EmptyString)) u = matches t u ∧
  matches t (String a (u ++ String b EmptyString)) = matches t u ∧
  matches u u = true.
Proof.
  intros Ha Hb matches. unfold matches, comment_matches. simpl.
  rewrite !trim_toLowerCase, !toLowerCase_idemp, !trim_idemp.
  rewrite !(trim_padded _ a b Ha Hb).
  repeat split. apply String.eqb_refl.
Qed.

Lemma comment_matches_insensitive_witness :
  comment_matches " PROD " (mkManagedKey (Some "prod") None) =
  comment_matches "PROD" (mkManagedKey (Some "prod") None).
Proof.
  exact (proj1 (proj2 (proj2 (proj2 (proj2
    (comment_matches_insensitive "PROD" "prod" " " " " None
       eq_refl eq_refl)))))).
Defined.
